(** * A shallow embedding of the lox-rust tree-walking interpreter

    The development follows the Rust sources: [scanner.rs] (tokens),
    [expression.rs] (values and expressions), [statement.rs],
    [environment.rs], [callable.rs], [interpreter.rs] and [parser.rs].

    Modelling conventions.
    - [f64] is Rocq's primitive binary64 [float]; string comparisons use
      [String.compare], which is byte-wise lexicographic like Rust's [Ord].
    - The [Rc<RefCell<Environment>>] cells are an explicit heap: a list of
      [environment] records addressed by their index.  A cell is allocated at
      the end of the heap, and its [enclosing] pointer always names an older
      cell.  A [HashMap<String, LiteralValue>] is an association list whose
      keys are kept unique by [values_insert].
    - [Result<_, String>] is [Fail]; a Rust [panic!] is [Panic]; loops and
      recursion run on fuel and report [NoFuel] when it is exhausted.
    - [LiteralValue::True] and [LiteralValue::False] are [LTrue] and
      [LFalse] here, so as not to shadow the propositions [True] and [False];
      [Stmt::Function] and [Expr::Variable] are [Function_] and [Variable_],
      as [Function] and [Variable] are Rocq keywords. *)

From Stdlib Require Import Ascii String List Bool Arith ZArith Lia Floats DecimalString.
Import ListNotations.
Open Scope string_scope.
Open Scope list_scope.
Set Warnings "-register-all".

(** ** Tokens ([scanner.rs]) *)

Module TokenType.
Inductive t :=
  | LeftParen | RightParen | LeftBrace | RightBrace | Comma | Dot | Minus
  | Plus | Semicolon | Slash | Star
  | Bang | BangEqual | Equal | EqualEqual | Greater | GreaterEqual | Less
  | LessEqual
  | Identifier | StringLit | Number
  | And | Class | Else | False | Fun | For | If | Nil | Or | Print | Return
  | Super | This | True | Var | While
  | Eof.

Definition eq_dec (a b : t) : {a = b} + {a <> b}.
Proof. decide equality. Defined.

(** [#[derive(PartialEq)]] *)
Definition eqb (a b : t) : bool := if eq_dec a b then true else false.
End TokenType.

(** [scanner::LiteralValue] *)
Inductive token_literal :=
| FValue (x : float)
| SValue (s : string).

Record token := mkToken {
  token_type : TokenType.t;
  lexeme : string;
  literal : option token_literal;
  line : nat
}.

(** ** Values, expressions and statements

    [LiteralValue], [LoxCallable], [Environment], [Expr] and [Stmt] refer to
    one another (a user function carries its body and its captured
    environment), so they form one mutual inductive. *)

Inductive literal_value :=
| Number (x : float)
| StringValue (s : string)
| LTrue
| LFalse
| Nil
| Callable (c : lox_callable)

(** [callable.rs]: a user function keeps its parameter tokens, its body and
    a copy of the [Environment] struct current at its definition; a native
    function keeps a name, an arity and (here) the index of its host
    implementation. *)
with lox_callable :=
| LoxFunction (name : string) (parameters : list token) (body : list stmt)
    (closure : environment)
| NativeFunction (name : string) (arity : nat) (fn : nat)

(** [environment.rs]: [values] and the [enclosing] cell. *)
with environment :=
| Env (values : list (string * literal_value)) (enclosing : option nat)

with expr :=
| Assign (name : token) (value : expr)
| Binary (left : expr) (operator : token) (right : expr)
| Call (callee : expr) (paren : token) (arguments : list expr)
| Grouping (expression : expr)
| Lambda (paren : token) (arguments : list token) (body : list stmt)
| Literal (value : literal_value)
| Logical (left : expr) (operator : token) (right : expr)
| Unary (operator : token) (right : expr)
| Variable_ (name : token)

with stmt :=
| Block (statements : list stmt)
| Expression (expression : expr)
| Function_ (name : token) (params : list token) (body : list stmt)
| If (condition : expr) (then_stmt : stmt) (else_stmt : option stmt)
| Print (expression : expr)
| Return (keyword : token) (value : option expr)
| Var (name : token) (initializer : expr)
| While (condition : expr) (body : stmt).

(** [LiteralValue::from_bool] *)
Definition from_bool (b : bool) : literal_value := if b then LTrue else LFalse.

(** [LiteralValue::is_truthy]; [None] is the [panic!] on a callable. *)
Definition is_truthy (v : literal_value) : option bool :=
  match v with
  | Number x => Some (negb (PrimFloat.eqb x 0%float))
  | StringValue s => Some (negb (String.eqb s ""))
  | LTrue => Some true
  | LFalse => Some false
  | Nil => Some false
  | Callable _ => None
  end.

(** [LoxCallable::arity] and [LoxCallable::name] *)
Definition callable_arity (c : lox_callable) : nat :=
  match c with
  | LoxFunction _ ps _ _ => length ps
  | NativeFunction _ a _ => a
  end.

Definition callable_name (c : lox_callable) : string :=
  match c with
  | LoxFunction n _ _ _ => n
  | NativeFunction n _ _ => n
  end.

(** [impl PartialEq for LiteralValue]: callables are compared by name and
    arity. *)
Definition value_eqb (a b : literal_value) : bool :=
  match a, b with
  | Number x, Number y => PrimFloat.eqb x y
  | StringValue s1, StringValue s2 => String.eqb s1 s2
  | LTrue, LTrue => true
  | LFalse, LFalse => true
  | Nil, Nil => true
  | Callable c1, Callable c2 =>
      String.eqb (callable_name c1) (callable_name c2)
      && Nat.eqb (callable_arity c1) (callable_arity c2)
  | _, _ => false
  end.

(** [LiteralValue::to_type] *)
Definition to_type (v : literal_value) : string :=
  match v with
  | Number _ => "Number"
  | StringValue _ => "String"
  | LTrue | LFalse => "Boolean"
  | Nil => "nil"
  | Callable _ => "Callable"
  end.

(** ** Environments ([environment.rs]) *)

Definition values_map := list (string * literal_value).

(** [HashMap::get] *)
Fixpoint values_get (name : string) (vs : values_map) : option literal_value :=
  match vs with
  | [] => None
  | (k, v) :: rest => if String.eqb k name then Some v else values_get name rest
  end.

(** [HashMap::insert]: overwrite the binding of [name] in place, or add it. *)
Fixpoint values_insert (name : string) (v : literal_value) (vs : values_map)
  : values_map :=
  match vs with
  | [] => [(name, v)]
  | (k, w) :: rest =>
      if String.eqb k name then (k, v) :: rest
      else (k, w) :: values_insert name v rest
  end.

(** [HashMap::extend] *)
Definition values_extend (vs others : values_map) : values_map :=
  fold_left (fun acc kv => values_insert (fst kv) (snd kv) acc) others vs.

Definition env_values (e : environment) : values_map :=
  match e with Env vs _ => vs end.

Definition env_enclosing (e : environment) : option nat :=
  match e with Env _ enc => enc end.

(** [Environment::new] *)
Definition environment_new : environment := Env [] None.

(** [Environment::define] *)
Definition define (name : string) (v : literal_value) (e : environment)
  : environment :=
  match e with Env vs enc => Env (values_insert name v vs) enc end.

(** The heap of [Rc<RefCell<Environment>>] cells. *)
Definition heap := list environment.

Fixpoint heap_set (h : heap) (p : nat) (e : environment) : heap :=
  match h, p with
  | [], _ => []
  | _ :: rest, O => e :: rest
  | x :: rest, S p' => x :: heap_set rest p' e
  end.

(** [Rc::new(RefCell::new(e))]: the new cell is the last one. *)
Definition heap_alloc (h : heap) (e : environment) : nat * heap :=
  (length h, h ++ [e]).

(** [Environment::get], walking the chain of cells.  The walk is bounded by
    the heap size, which suffices as every [enclosing] pointer names an older
    cell. *)
Fixpoint env_get_aux (n : nat) (h : heap) (p : nat) (name : string)
  : option literal_value :=
  match n with
  | O => None
  | S n' =>
      match nth_error h p with
      | None => None
      | Some (Env vs enc) =>
          match values_get name vs, enc with
          | Some v, _ => Some v
          | None, Some q => env_get_aux n' h q name
          | None, None => None
          end
      end
  end.

Definition env_get (h : heap) (p : nat) (name : string) : option literal_value :=
  env_get_aux (length h) h p name.

(** [Environment::assign]: [None] is the [false] result; otherwise the
    updated heap. *)
Fixpoint env_assign_aux (n : nat) (h : heap) (p : nat) (name : string)
    (v : literal_value) : option heap :=
  match n with
  | O => None
  | S n' =>
      match nth_error h p with
      | None => None
      | Some (Env vs enc) =>
          match values_get name vs, enc with
          | Some _, _ => Some (heap_set h p (Env (values_insert name v vs) enc))
          | None, Some q => env_assign_aux n' h q name v
          | None, None => None
          end
      end
  end.

Definition env_assign (h : heap) (p : nat) (name : string) (v : literal_value)
  : option heap :=
  env_assign_aux (length h) h p name v.

(** ** Interpreter state ([interpreter.rs])

    [environment] is the current cell; [return_value] is the return slot
    ([specials["return"]] in [interpreter.rs], [return_value] in
    [callable.rs]); [output] collects the values written by [println!]. *)

Record interp := mkInterp {
  cur_env : nat;
  return_value : option literal_value;
  heap_of : heap;
  output : list literal_value
}.

Definition set_env (st : interp) (p : nat) : interp :=
  mkInterp p (return_value st) (heap_of st) (output st).

Definition set_return (st : interp) (r : option literal_value) : interp :=
  mkInterp (cur_env st) r (heap_of st) (output st).

Definition set_heap (st : interp) (h : heap) : interp :=
  mkInterp (cur_env st) (return_value st) h (output st).

Definition emit (st : interp) (v : literal_value) : interp :=
  mkInterp (cur_env st) (return_value st) (heap_of st) (output st ++ [v]).

(** The [Environment] struct behind the current cell. *)
Definition current_frame (st : interp) : environment :=
  match nth_error (heap_of st) (cur_env st) with
  | Some e => e
  | None => environment_new
  end.

(** [self.environment.borrow_mut().define(name, v)] *)
Definition define_current (st : interp) (name : string) (v : literal_value)
  : interp :=
  set_heap st (heap_set (heap_of st) (cur_env st) (define name v (current_frame st))).

(** [Interpreter::new]: cell 0 is the global environment, holding [clock]
    (host function 0, arity 0). *)
Definition clock_callable : lox_callable := NativeFunction "clock" 0 0.

Definition interpreter_new : interp :=
  mkInterp 0 None [Env [("clock", Callable clock_callable)] None] [].

(** Results of the interpreter and of the parser. *)
Inductive outcome (S A : Type) :=
| Done (a : A) (s : S)
| Fail (msg : string) (s : S)
| Panic (msg : string)
| NoFuel.
Arguments Done {S A} a s.
Arguments Fail {S A} msg s.
Arguments Panic {S A} msg.
Arguments NoFuel {S A}.

(** The [?] operator. *)
Definition bind {S A B} (r : outcome S A) (k : A -> S -> outcome S B)
  : outcome S B :=
  match r with
  | Done a s => k a s
  | Fail m s => Fail m s
  | Panic m => Panic m
  | NoFuel => NoFuel
  end.

Notation "'let?' ( x , s ) ':=' r 'in' k" := (bind r (fun x s => k))
  (at level 200, x name, s name, r at level 100, k at level 200).

(** ** [Environment::get_at] and [Environment::assign_at] *)

(** [Environment::get_at]: at distance 0 the cell's own binding; otherwise
    the same call, with the same distance, on the enclosing cell, or the
    [panic!] when there is none.  The walk is bounded by the heap size; a
    pointer to no cell cannot occur and is [NoFuel]. *)
Fixpoint env_get_at (n : nat) (h : heap) (p : nat) (distance : nat) (name : string)
  : outcome unit (option literal_value) :=
  match n with
  | O => NoFuel
  | S n' =>
      match nth_error h p with
      | None => NoFuel
      | Some (Env vs enc) =>
          match distance with
          | O => Done (values_get name vs) tt
          | S _ =>
              match enc with
              | Some q => env_get_at n' h q distance name
              | None => Panic "Tried to access ancestor too deep."
              end
          end
      end
  end.

Definition get_at (h : heap) (p : nat) (distance : nat) (name : string)
  : outcome unit (option literal_value) :=
  env_get_at (length h) h p distance name.

(** [Environment::assign_at]: [Environment::assign] from the cell
    [distance] steps up the chain. *)
Fixpoint env_assign_at (n : nat) (h : heap) (p : nat) (distance : nat) (name : string)
    (v : literal_value) : outcome unit (option heap) :=
  match n with
  | O => NoFuel
  | S n' =>
      match nth_error h p with
      | None => NoFuel
      | Some (Env vs enc) =>
          match distance with
          | O => Done (env_assign h p name v) tt
          | S d =>
              match enc with
              | Some q => env_assign_at n' h q d name v
              | None => Panic "Tried to access ancestor too deep"
              end
          end
      end
  end.

Definition assign_at (h : heap) (p : nat) (distance : nat) (name : string)
    (v : literal_value) : outcome unit (option heap) :=
  env_assign_at (length h) h p distance name v.

(** The shape of the heap the interpreter builds: every [enclosing]
    pointer names an older cell. *)
Definition heap_wf (h : heap) : Prop :=
  forall i vs q, nth_error h i = Some (Env vs (Some q)) -> q < i.

(** ** Evaluation ([interpreter.rs], [callable.rs]) *)

(** The operator table of [Expr::Binary] in [Interpreter::evaluate], in the
    order of the Rust [match] arms.  Error messages keep their wording but
    not the formatted operator and operands. *)
Definition binary_op (l : literal_value) (tt : TokenType.t) (r : literal_value)
  : literal_value + string :=
  let not_supported := inr "operator is not supported for these operands" in
  let mixed := inr "operator is not supported for String and Number" in
  let equality :=
    match tt with
    | TokenType.BangEqual => inl (from_bool (negb (value_eqb l r)))
    | TokenType.EqualEqual => inl (from_bool (value_eqb l r))
    | _ => not_supported
    end in
  match l, r with
  | Number x, Number y =>
      match tt with
      | TokenType.Plus => inl (Number (PrimFloat.add x y))
      | TokenType.Minus => inl (Number (PrimFloat.sub x y))
      | TokenType.Star => inl (Number (PrimFloat.mul x y))
      | TokenType.Slash => inl (Number (PrimFloat.div x y))
      | TokenType.Greater => inl (from_bool (PrimFloat.ltb y x))
      | TokenType.GreaterEqual => inl (from_bool (PrimFloat.leb y x))
      | TokenType.Less => inl (from_bool (PrimFloat.ltb x y))
      | TokenType.LessEqual => inl (from_bool (PrimFloat.leb x y))
      | _ => equality
      end
  | Number _, StringValue _ => mixed
  | StringValue _, Number _ => mixed
  | StringValue s1, StringValue s2 =>
      match tt with
      | TokenType.Plus => inl (StringValue (s1 ++ s2))
      | TokenType.Greater =>
          inl (from_bool (match String.compare s1 s2 with Gt => true | _ => false end))
      | TokenType.GreaterEqual =>
          inl (from_bool (match String.compare s1 s2 with Lt => false | _ => true end))
      | TokenType.Less =>
          inl (from_bool (match String.compare s1 s2 with Lt => true | _ => false end))
      | TokenType.LessEqual =>
          inl (from_bool (match String.compare s1 s2 with Gt => false | _ => true end))
      | _ => equality
      end
  | _, _ => equality
  end.

Definition truthy_panic := "Cannot use a callable as a truthy value".

Section Eval.

(** The host implementations of native functions, indexed by the [fn] field
    of [NativeFunction] ([fn(&Interpreter, &[LiteralValue]) -> Result]). *)
Variable host : nat -> list literal_value -> literal_value + string.

(** [Interpreter::evaluate], [LoxCallable::call], [Interpreter::interpret],
    [Interpreter::execute] (with [execute_block] inlined into [Stmt::Block])
    and the [while] loop of [Stmt::While].

    [Expr::Call] hands its argument expressions to [LoxCallable::call],
    which takes the slice of their values: [evaluate_args] evaluates them
    left to right. *)
Fixpoint evaluate (fuel : nat) (e : expr) (st : interp) {struct fuel}
  : outcome interp literal_value :=
  match fuel with
  | O => NoFuel
  | S f =>
    match e with
    | Assign name value =>
        let? (new_value, st1) := evaluate f value st in
        match env_assign (heap_of st1) (cur_env st1) (lexeme name) new_value with
        | Some h => Done new_value (set_heap st1 h)
        | None => Fail ("Variable " ++ lexeme name ++ " has not been declared.") st1
        end
    | Binary left_ operator right_ =>
        let? (expr_l, st1) := evaluate f left_ st in
        let? (expr_r, st2) := evaluate f right_ st1 in
        match binary_op expr_l (token_type operator) expr_r with
        | inl v => Done v st2
        | inr m => Fail m st2
        end
    | Call callee _ arguments =>
        let? (literal_value, st1) := evaluate f callee st in
        match literal_value with
        | Callable callable =>
            let? (args, st2) := evaluate_args f arguments st1 in
            call f callable args st2
        | _ => Fail "Expected callable" st1
        end
    | Grouping expression => evaluate f expression st
    | Lambda _ arguments body =>
        Done (Callable (LoxFunction "lambda" arguments body (current_frame st))) st
    | Literal value => Done value st
    | Logical left_ operator right_ =>
        let? (l, st1) := evaluate f left_ st in
        match is_truthy l with
        | None => Panic truthy_panic
        | Some b =>
            if TokenType.eqb (token_type operator) TokenType.Or then
              if b then Done l st1 else evaluate f right_ st1
            else if negb b then Done l st1 else evaluate f right_ st1
        end
    | Unary operator right_ =>
        let? (v, st1) := evaluate f right_ st in
        match v, token_type operator with
        | Number x, TokenType.Minus => Done (Number (PrimFloat.opp x)) st1
        | _, TokenType.Minus =>
            Fail ("Minus operator not implemented for " ++ to_type v ++ ".") st1
        | _, TokenType.Bang =>
            match is_truthy v with
            | Some b => Done (from_bool (negb b)) st1
            | None => Panic truthy_panic
            end
        | _, _ => Fail "is not a valid unary operator." st1
        end
    | Variable_ name =>
        match env_get (heap_of st) (cur_env st) (lexeme name) with
        | Some v => Done v st
        | None => Fail ("Variable '" ++ lexeme name ++ "' has not been declared.") st
        end
    end
  end

with evaluate_args (fuel : nat) (es : list expr) (st : interp) {struct fuel}
  : outcome interp (list literal_value) :=
  match fuel with
  | O => NoFuel
  | S f =>
    match es with
    | [] => Done [] st
    | e :: rest =>
        let? (v, st1) := evaluate f e st in
        let? (vs, st2) := evaluate_args f rest st1 in
        Done (v :: vs) st2
    end
  end

(** [LoxCallable::call].  The body runs in a new cell whose bindings are the
    closure's, extended with those of the caller's current environment and
    then with the arguments zipped to the parameters; its parent is the
    closure's parent. *)
with call (fuel : nat) (c : lox_callable) (arguments : list literal_value)
    (st : interp) {struct fuel} : outcome interp literal_value :=
  match fuel with
  | O => NoFuel
  | S f =>
    match c with
    | LoxFunction _ parameters body closure =>
        let args_env := combine (map lexeme parameters) arguments in
        let saved_env := cur_env st in
        let saved_return_value := return_value st in
        let env :=
          Env (values_extend
                 (values_extend (env_values closure) (env_values (current_frame st)))
                 args_env)
              (env_enclosing closure) in
        let (p, h) := heap_alloc (heap_of st) env in
        let? (_, st1) := interpret f body (set_env (set_heap st h) p) in
        let rv := return_value st1 in
        let st2 := set_return (set_env st1 saved_env) saved_return_value in
        match rv with
        | Some v => Done v st2
        | None => Done Nil st2
        end
    | NativeFunction _ _ fn =>
        match host fn arguments with
        | inl v => Done v st
        | inr m => Fail m st
        end
    end
  end

with interpret (fuel : nat) (stmts : list stmt) (st : interp) {struct fuel}
  : outcome interp unit :=
  match fuel with
  | O => NoFuel
  | S f =>
    match stmts with
    | [] => Done tt st
    | s :: rest =>
        let? (_, st1) := execute f s st in
        interpret f rest st1
    end
  end

with execute (fuel : nat) (s : stmt) (st : interp) {struct fuel}
  : outcome interp unit :=
  match fuel with
  | O => NoFuel
  | S f =>
    match s with
    | Block statements =>
        let (p, h) := heap_alloc (heap_of st) (Env [] (Some (cur_env st))) in
        let old_environment := cur_env st in
        match interpret f statements (set_env (set_heap st h) p) with
        | Done _ st1 => Done tt (set_env st1 old_environment)
        | Fail m st1 => Fail m (set_env st1 old_environment)
        | Panic m => Panic m
        | NoFuel => NoFuel
        end
    | Expression expression =>
        let? (_, st1) := evaluate f expression st in Done tt st1
    | Function_ name params body =>
        let callable :=
          Callable (LoxFunction (lexeme name) params body (current_frame st)) in
        Done tt (define_current st (lexeme name) callable)
    | If condition then_stmt else_stmt =>
        let? (truth_value, st1) := evaluate f condition st in
        match is_truthy truth_value with
        | None => Panic truthy_panic
        | Some true => interpret f [then_stmt] st1
        | Some false =>
            match else_stmt with
            | Some els => interpret f [els] st1
            | None => Done tt st1
            end
        end
    | Print expression =>
        let? (result, st1) := evaluate f expression st in Done tt (emit st1 result)
    | Return _ value =>
        match value with
        | Some e =>
            let? (v, st1) := evaluate f e st in Done tt (set_return st1 (Some v))
        | None => Done tt (set_return st (Some Nil))
        end
    | Var name initializer =>
        let? (value, st1) := evaluate f initializer st in
        Done tt (define_current st1 (lexeme name) value)
    | While condition body =>
        let? (flag, st1) := evaluate f condition st in
        run_while f condition body flag st1
    end
  end

(** [while flag.is_truthy() { self.interpret(vec![body])?;
    flag = self.evaluate(condition)?; }] *)
with run_while (fuel : nat) (condition : expr) (body : stmt)
    (flag : literal_value) (st : interp) {struct fuel} : outcome interp unit :=
  match fuel with
  | O => NoFuel
  | S f =>
    match is_truthy flag with
    | None => Panic truthy_panic
    | Some false => Done tt st
    | Some true =>
        let? (_, st1) := interpret f [body] st in
        let? (flag', st2) := evaluate f condition st1 in
        run_while f condition body flag' st2
    end
  end.

End Eval.

(** ** The parser ([parser.rs]) *)

Record parser := mkParser { tokens : list token; current : nat }.

Definition eof_token : token := mkToken TokenType.Eof "" None 0.

(** [self.tokens[self.current]]: the stream ends in [Eof] and [advance]
    never moves past it, so the index is always in range. *)
Definition peek (p : parser) : token := nth (current p) (tokens p) eof_token.

Definition previous (p : parser) : token :=
  nth (current p - 1) (tokens p) eof_token.

Definition is_at_end (p : parser) : bool :=
  TokenType.eqb (token_type (peek p)) TokenType.Eof.

Definition check (p : parser) (tt : TokenType.t) : bool :=
  if is_at_end p then false else TokenType.eqb (token_type (peek p)) tt.

Definition advance (p : parser) : parser :=
  if is_at_end p then p else mkParser (tokens p) (S (current p)).

Fixpoint match_tokens (p : parser) (types : list TokenType.t) : bool * parser :=
  match types with
  | [] => (false, p)
  | t :: rest => if check p t then (true, advance p) else match_tokens p rest
  end.

Definition consume (p : parser) (tt : TokenType.t) (message : string)
  : outcome parser token :=
  if TokenType.eqb (token_type (peek p)) tt then
    let p' := advance p in Done (previous p') p'
  else Fail message p.

(** [LiteralValue::from_token]; [None] is its [panic!]. *)
Definition from_token (t : token) : option literal_value :=
  match token_type t, literal t with
  | TokenType.Number, Some (FValue x) => Some (Number x)
  | TokenType.Number, _ => None
  | TokenType.StringLit, Some (SValue s) => Some (StringValue s)
  | TokenType.StringLit, _ => None
  | TokenType.False, _ => Some LFalse
  | TokenType.Nil, _ => Some Nil
  | TokenType.True, _ => Some LTrue
  | _, _ => None
  end.

(** The parameter loop shared by [fun_declaration] and [lambda_expression]:
    the count is checked before each parameter is read. *)
Fixpoint params_loop (fuel : nat) (too_many : string) (params : list token)
    (p : parser) : outcome parser (list token) :=
  match fuel with
  | O => NoFuel
  | S f =>
      if Nat.leb 255 (length params) then Fail too_many p
      else
        let? (param, p1) := consume p TokenType.Identifier "Expected parameter name." in
        let params' := params ++ [param] in
        let (m, p2) := match_tokens p1 [TokenType.Comma] in
        if m then params_loop f too_many params' p2 else Done params' p2
  end.

(** The argument loop of [finish_call]: the count is checked after each
    argument is pushed. *)
Fixpoint args_loop (fuel : nat) (expression : parser -> outcome parser expr)
    (arguments : list expr) (p : parser) : outcome parser (list expr) :=
  match fuel with
  | O => NoFuel
  | S f =>
      let? (a, p1) := expression p in
      let arguments' := arguments ++ [a] in
      if Nat.leb 255 (length arguments') then
        Fail "Functions cannot have more than 255 arguments" p1
      else
        let (m, p2) := match_tokens p1 [TokenType.Comma] in
        if m then args_loop f expression arguments' p2 else Done arguments' p2
  end.

(** [while self.match_tokens(types) { operator; right = sub()?; ... }] of
    [or], [and], [equality], [comparison], [term] and [factor]. *)
Fixpoint binary_loop (fuel : nat) (types : list TokenType.t)
    (mk : expr -> token -> expr -> expr) (sub : parser -> outcome parser expr)
    (e : expr) (p : parser) : outcome parser expr :=
  match fuel with
  | O => NoFuel
  | S f =>
      let (m, p1) := match_tokens p types in
      if m then
        let operator := previous p1 in
        let? (right_, p2) := sub p1 in
        binary_loop f types mk sub (mk e operator right_) p2
      else Done e p1
  end.

(** The loop of [call]. *)
Fixpoint call_loop (fuel : nat) (finish_call : expr -> parser -> outcome parser expr)
    (e : expr) (p : parser) : outcome parser expr :=
  match fuel with
  | O => NoFuel
  | S f =>
      let (m, p1) := match_tokens p [TokenType.LeftParen] in
      if m then
        let? (e', p2) := finish_call e p1 in call_loop f finish_call e' p2
      else Done e p1
  end.

(** The loop of [block_statement]. *)
Fixpoint block_loop (fuel : nat) (declaration : parser -> outcome parser stmt)
    (statements : list stmt) (p : parser) : outcome parser (list stmt) :=
  match fuel with
  | O => NoFuel
  | S f =>
      if negb (check p TokenType.RightBrace) && negb (is_at_end p) then
        let? (d, p1) := declaration p in
        block_loop f declaration (statements ++ [d]) p1
      else Done statements p
  end.

(** The recursive-descent functions of [impl Parser], one per Rust method;
    the loops above receive the parsing function they call. *)
Fixpoint declaration (fuel : nat) (p : parser) {struct fuel}
  : outcome parser stmt :=
  match fuel with
  | O => NoFuel
  | S f =>
      let (m1, p1) := match_tokens p [TokenType.Fun] in
      if m1 then fun_declaration f p1 else
      let (m2, p2) := match_tokens p [TokenType.Var] in
      if m2 then var_declaration f p2 else statement f p
  end

with statement (fuel : nat) (p : parser) {struct fuel} : outcome parser stmt :=
  match fuel with
  | O => NoFuel
  | S f =>
      let (m1, p1) := match_tokens p [TokenType.For] in
      if m1 then for_statement f p1 else
      let (m2, p2) := match_tokens p [TokenType.If] in
      if m2 then if_statement f p2 else
      let (m3, p3) := match_tokens p [TokenType.Print] in
      if m3 then print_statement f p3 else
      let (m4, p4) := match_tokens p [TokenType.Return] in
      if m4 then return_statement f p4 else
      let (m5, p5) := match_tokens p [TokenType.While] in
      if m5 then while_statement f p5 else
      let (m6, p6) := match_tokens p [TokenType.LeftBrace] in
      if m6 then block_statement f p6 else expression_statement f p
  end

with for_statement (fuel : nat) (p : parser) {struct fuel} : outcome parser stmt :=
  match fuel with
  | O => NoFuel
  | S f =>
      let? (_, p1) := consume p TokenType.LeftParen "Expected '(' after 'for'." in
      let? (initializer, p2) :=
        (let (ms, q1) := match_tokens p1 [TokenType.Semicolon] in
         if ms then Done None q1 else
         let (mv, q2) := match_tokens p1 [TokenType.Var] in
         if mv then (let? (s, q3) := var_declaration f q2 in Done (Some s) q3)
         else (let? (s, q3) := expression_statement f p1 in Done (Some s) q3)) in
      let? (condition, p3) :=
        (let (ms, q1) := match_tokens p2 [TokenType.Semicolon] in
         if ms then Done (Literal LTrue) q1 else expression f p2) in
      let? (_, p4) := consume p3 TokenType.Semicolon "Expected ';' after loop condition." in
      let? (increment, p5) :=
        (if check p4 TokenType.RightParen then Done None p4
         else let? (e, q) := expression f p4 in Done (Some e) q) in
      let? (_, p6) := consume p5 TokenType.RightParen "Expected ')' after for loop clauses." in
      let? (body, p7) := statement f p6 in
      let body := match increment with
                  | Some increment_stmt =>
                      Block [body; Expression increment_stmt]
                  | None => body
                  end in
      let body := While condition body in
      let body := match initializer with
                  | Some initializer_stmt => Block [initializer_stmt; body]
                  | None => body
                  end in
      Done body p7
  end

with if_statement (fuel : nat) (p : parser) {struct fuel} : outcome parser stmt :=
  match fuel with
  | O => NoFuel
  | S f =>
      let? (_, p1) := consume p TokenType.LeftParen "Expected '(' after 'if'." in
      let? (condition, p2) := expression f p1 in
      let? (_, p3) := consume p2 TokenType.RightParen "Expected ')' after 'if'." in
      let? (then_stmt, p4) := statement f p3 in
      let (me, p5) := match_tokens p4 [TokenType.Else] in
      if me then
        let? (els, p6) := statement f p5 in Done (If condition then_stmt (Some els)) p6
      else Done (If condition then_stmt None) p5
  end

with print_statement (fuel : nat) (p : parser) {struct fuel}
  : outcome parser stmt :=
  match fuel with
  | O => NoFuel
  | S f =>
      let? (value, p1) := expression f p in
      let? (_, p2) := consume p1 TokenType.Semicolon "Expected ';' after value." in
      Done (Print value) p2
  end

with return_statement (fuel : nat) (p : parser) {struct fuel}
  : outcome parser stmt :=
  match fuel with
  | O => NoFuel
  | S f =>
      let keyword := previous p in
      let? (value, p1) :=
        (if negb (check p TokenType.Semicolon) then
           let? (e, q) := expression f p in Done (Some e) q
         else Done None p) in
      let? (_, p2) := consume p1 TokenType.Semicolon "Expect ';' after return value" in
      Done (Return keyword value) p2
  end

with expression_statement (fuel : nat) (p : parser) {struct fuel}
  : outcome parser stmt :=
  match fuel with
  | O => NoFuel
  | S f =>
      let? (value, p1) := expression f p in
      let? (_, p2) := consume p1 TokenType.Semicolon "Expected ';' after value." in
      Done (Expression value) p2
  end

with block_statement (fuel : nat) (p : parser) {struct fuel}
  : outcome parser stmt :=
  match fuel with
  | O => NoFuel
  | S f =>
      let? (statements, p1) := block_loop f (declaration f) [] p in
      let? (_, p2) := consume p1 TokenType.RightBrace "Expected '}' after a block" in
      Done (Block statements) p2
  end

with assignment (fuel : nat) (p : parser) {struct fuel} : outcome parser expr :=
  match fuel with
  | O => NoFuel
  | S f =>
      let? (e, p1) := or_ f p in
      let (m, p2) := match_tokens p1 [TokenType.Equal] in
      if m then
        let? (value, p3) := expression f p2 in
        match e with
        | Variable_ name => Done (Assign name value) p3
        | _ => Fail "Invalid Assignment target" p3
        end
      else Done e p2
  end

with lambda_expression (fuel : nat) (p : parser) {struct fuel}
  : outcome parser expr :=
  match fuel with
  | O => NoFuel
  | S f =>
      let? (paren, p1) := consume p TokenType.LeftParen "Expected '(' after lambda function." in
      let? (params, p2) :=
        (if negb (check p1 TokenType.RightParen) then
           params_loop f "Can't have more than 255 arguments in a lambda function." [] p1
         else Done [] p1) in
      let? (_, p3) := consume p2 TokenType.RightParen "Expected ')' after lambda function parameters." in
      let? (_, p4) := consume p3 TokenType.LeftBrace "Expected '{' after lambda function declaration." in
      let? (b, p5) := block_statement f p4 in
      match b with
      | Block statements => Done (Lambda paren params statements) p5
      | _ => Panic "Block statement parsed something that was not a block."
      end
  end

with or_ (fuel : nat) (p : parser) {struct fuel} : outcome parser expr :=
  match fuel with
  | O => NoFuel
  | S f =>
      let? (e, p1) := and_ f p in binary_loop f [TokenType.Or] Logical (and_ f) e p1
  end

with and_ (fuel : nat) (p : parser) {struct fuel} : outcome parser expr :=
  match fuel with
  | O => NoFuel
  | S f =>
      let? (e, p1) := equality f p in
      binary_loop f [TokenType.And] Logical (equality f) e p1
  end

with fun_declaration (fuel : nat) (p : parser) {struct fuel}
  : outcome parser stmt :=
  match fuel with
  | O => NoFuel
  | S f =>
      let? (name, p1) := consume p TokenType.Identifier "Expected Function name." in
      let? (_, p2) := consume p1 TokenType.LeftParen "Expected '(' after Function name." in
      let? (params, p3) :=
        (if negb (check p2 TokenType.RightParen) then
           params_loop f "Can't have more than 255 parameters." [] p2
         else Done [] p2) in
      let? (_, p4) := consume p3 TokenType.RightParen "Expected ')' after parameters." in
      let? (_, p5) := consume p4 TokenType.LeftBrace "Expect '{' before Function body." in
      let? (b, p6) := block_statement f p5 in
      match b with
      | Block statements => Done (Function_ name params statements) p6
      | _ => Panic "Found something other than a block"
      end
  end

with var_declaration (fuel : nat) (p : parser) {struct fuel}
  : outcome parser stmt :=
  match fuel with
  | O => NoFuel
  | S f =>
      let? (name, p1) := consume p TokenType.Identifier "Expected variable name." in
      let? (initializer, p2) :=
        (let (m, q) := match_tokens p1 [TokenType.Equal] in
         if m then expression f q else Done (Literal Nil) q) in
      let? (_, p3) := consume p2 TokenType.Semicolon "Expected ';' after variable declaration." in
      Done (Var name initializer) p3
  end

with while_statement (fuel : nat) (p : parser) {struct fuel}
  : outcome parser stmt :=
  match fuel with
  | O => NoFuel
  | S f =>
      let? (_, p1) := consume p TokenType.LeftParen "Expect '(' after a 'while'." in
      let? (condition, p2) := expression f p1 in
      let? (_, p3) := consume p2 TokenType.RightParen "Expect ')' after while condition." in
      let? (body, p4) := statement f p3 in
      Done (While condition body) p4
  end

with expression (fuel : nat) (p : parser) {struct fuel} : outcome parser expr :=
  match fuel with
  | O => NoFuel
  | S f => assignment f p
  end

with equality (fuel : nat) (p : parser) {struct fuel} : outcome parser expr :=
  match fuel with
  | O => NoFuel
  | S f =>
      let? (e, p1) := comparison f p in
      binary_loop f [TokenType.BangEqual; TokenType.EqualEqual] Binary (comparison f) e p1
  end

with comparison (fuel : nat) (p : parser) {struct fuel} : outcome parser expr :=
  match fuel with
  | O => NoFuel
  | S f =>
      let? (e, p1) := term f p in
      binary_loop f [TokenType.Greater; TokenType.GreaterEqual; TokenType.Less;
                     TokenType.LessEqual] Binary (term f) e p1
  end

with term (fuel : nat) (p : parser) {struct fuel} : outcome parser expr :=
  match fuel with
  | O => NoFuel
  | S f =>
      let? (e, p1) := factor f p in
      binary_loop f [TokenType.Minus; TokenType.Plus] Binary (factor f) e p1
  end

with factor (fuel : nat) (p : parser) {struct fuel} : outcome parser expr :=
  match fuel with
  | O => NoFuel
  | S f =>
      let? (e, p1) := unary f p in
      binary_loop f [TokenType.Slash; TokenType.Star] Binary (unary f) e p1
  end

with unary (fuel : nat) (p : parser) {struct fuel} : outcome parser expr :=
  match fuel with
  | O => NoFuel
  | S f =>
      let (m, p1) := match_tokens p [TokenType.Bang; TokenType.Minus] in
      if m then
        let operator := previous p1 in
        let? (right_, p2) := unary f p1 in
        Done (Unary operator right_) p2
      else call_ f p
  end

with finish_call (fuel : nat) (callee : expr) (p : parser) {struct fuel}
  : outcome parser expr :=
  match fuel with
  | O => NoFuel
  | S f =>
      let? (arguments, p1) :=
        (if negb (check p TokenType.RightParen) then args_loop f (expression f) [] p
         else Done [] p) in
      let? (paren, p2) := consume p1 TokenType.RightParen "Expect ')' after arguments." in
      Done (Call callee paren arguments) p2
  end

with call_ (fuel : nat) (p : parser) {struct fuel} : outcome parser expr :=
  match fuel with
  | O => NoFuel
  | S f =>
      let? (e, p1) := primary f p in call_loop f (finish_call f) e p1
  end

with primary (fuel : nat) (p : parser) {struct fuel} : outcome parser expr :=
  match fuel with
  | O => NoFuel
  | S f =>
      let t := peek p in
      match token_type t with
      | TokenType.LeftParen =>
          let? (e, p1) := expression f (advance p) in
          let? (_, p2) := consume p1 TokenType.RightParen "Expected ')'" in
          Done (Grouping e) p2
      | TokenType.False | TokenType.True | TokenType.Nil | TokenType.Number
      | TokenType.StringLit =>
          match from_token t with
          | Some v => Done (Literal v) (advance p)
          | None => Panic "Could not create LiteralValue"
          end
      | TokenType.Identifier =>
          let p1 := advance p in Done (Variable_ (previous p1)) p1
      | TokenType.Fun => lambda_expression f (advance p)
      | _ => Fail "Expected an expression." p
      end
  end.

(** [Parser::synchronize] *)
Fixpoint synchronize_loop (fuel : nat) (p : parser) : parser :=
  match fuel with
  | O => p
  | S f =>
      if is_at_end p then p
      else if TokenType.eqb (token_type (previous p)) TokenType.Semicolon then p
      else match token_type (peek p) with
           | TokenType.Class | TokenType.Fun | TokenType.Var | TokenType.For
           | TokenType.If | TokenType.While | TokenType.Print | TokenType.Return => p
           | _ => synchronize_loop f (advance p)
           end
  end.

Definition synchronize (fuel : nat) (p : parser) : parser :=
  synchronize_loop fuel (advance p).

(** [Parser::parse]: statements are collected; on an error the message is
    recorded (without its ["Line n: "] prefix) and the parser
    synchronizes.  The result is the statements, or the error list joined by
    newlines. *)
Fixpoint parse_loop (fuel : nat) (stmts : list stmt) (errors : list string)
    (p : parser) : outcome parser (list stmt * list string) :=
  match fuel with
  | O => NoFuel
  | S f =>
      if is_at_end p then Done (stmts, errors) p
      else match declaration fuel p with
           | Done s p1 => parse_loop f (stmts ++ [s]) errors p1
           | Fail m p1 => parse_loop f stmts (errors ++ [m]) (synchronize fuel p1)
           | Panic m => Panic m
           | NoFuel => NoFuel
           end
  end.

Definition parse (fuel : nat) (toks : list token) : outcome parser (list stmt) :=
  let p := mkParser toks 0 in
  match parse_loop fuel [] [] p with
  | Done (stmts, []) p1 => Done stmts p1
  | Done (_, errors) p1 => Fail (String.concat (String (Ascii.ascii_of_nat 10) EmptyString) errors) p1
  | Panic m => Panic m
  | NoFuel => NoFuel
  | Fail m p1 => Fail m p1
  end.

(** ** The scanner ([scanner.rs])

    The source is a string of ASCII characters: for them the byte offsets of
    [self.source.len()] and [self.source[a..b]] coincide with the character
    indices of [self.source.chars().nth(i)], and [ch as u8] is the character
    code ([ascii_source] says when a string is such a source).  The
    [chars().nth(i).unwrap()] of [advance] and [char_match] is only reached
    below the length, where [char_at] is [String.get].  The loops run on a
    fuel bounded below by the number of characters left ([NoFuel] when it
    runs out). *)

Definition ascii_source (s : string) : bool :=
  forallb (fun c => Nat.ltb (nat_of_ascii c) 128) (list_ascii_of_string s).

(** [str::parse::<f64>] on the lexemes [number] hands it: one or more
    digits, then optionally a dot and one or more digits.  The value
    [m / 10^k] is rounded to the nearest binary64 number, ties to even, as
    Rust's parser does; [SFdiv_core_binary] computes the quotient with the
    location of the remainder and [binary_round_aux] rounds it.  Rust accepts
    further forms (exponents, a leading or trailing dot, signs, [inf], [NaN])
    which the scanner never produces; they are [None] here. *)
Definition decimal_to_float (m : Z) (k : nat) : float :=
  match m with
  | Zpos _ =>
      let '(q, e, l) := SFdiv_core_binary 53 1024 m 0 (Z.pow 10 (Z.of_nat k)) 0 in
      SF2Prim (binary_round_aux 53 1024 false q e l)
  | _ => 0%float
  end.

Definition scanner_is_digit (ch : ascii) : bool :=
  Nat.leb (nat_of_ascii "0"%char) (nat_of_ascii ch)
  && Nat.leb (nat_of_ascii ch) (nat_of_ascii "9"%char).

(** The longest run of digits at the front of [s], with [m] and [k] the
    value and the count of the digits read so far. *)
Fixpoint read_digits (s : string) (m : Z) (k : nat) : Z * nat * string :=
  match s with
  | String c s' =>
      if scanner_is_digit c
      then read_digits s' (m * 10 + Z.of_nat (nat_of_ascii c - nat_of_ascii "0"%char))%Z (S k)
      else (m, k, s)
  | EmptyString => (m, k, s)
  end.

Definition parse_f64 (s : string) : option float :=
  match read_digits s 0%Z 0 with
  | (_, O, _) => None
  | (m, _, EmptyString) => Some (decimal_to_float m 0)
  | (m, _, String c rest) =>
      if Ascii.eqb c "."%char then
        match read_digits rest m 0 with
        | (m', S k, EmptyString) => Some (decimal_to_float m' (S k))
        | _ => None
        end
      else None
  end.

Module Scanner.

Definition newline : ascii := ascii_of_nat 10.
Definition quote : ascii := ascii_of_nat 34.
Definition carriage_return : ascii := ascii_of_nat 13.
Definition tab : ascii := ascii_of_nat 9.
Definition nul : ascii := ascii_of_nat 0.

(** [is_digit], [is_alpha] and [is_alphanumeric] *)
Definition is_digit (ch : ascii) : bool := scanner_is_digit ch.

Definition is_alpha (ch : ascii) : bool :=
  let uch := nat_of_ascii ch in
  (Nat.leb (nat_of_ascii "a"%char) uch && Nat.leb uch (nat_of_ascii "z"%char))
  || (Nat.leb (nat_of_ascii "A"%char) uch && Nat.leb uch (nat_of_ascii "Z"%char))
  || Ascii.eqb ch "_"%char.

Definition is_alphanumeric (ch : ascii) : bool := is_alpha ch || is_digit ch.

(** [get_keywords_hashmap] and [HashMap::get] on it *)
Definition keywords : list (string * TokenType.t) :=
  [("and", TokenType.And); ("class", TokenType.Class); ("else", TokenType.Else);
   ("false", TokenType.False); ("for", TokenType.For); ("fun", TokenType.Fun);
   ("if", TokenType.If); ("nil", TokenType.Nil); ("or", TokenType.Or);
   ("print", TokenType.Print); ("return", TokenType.Return);
   ("super", TokenType.Super); ("this", TokenType.This); ("true", TokenType.True);
   ("var", TokenType.Var); ("while", TokenType.While)].

Fixpoint keyword_get (s : string) (kws : list (string * TokenType.t))
  : option TokenType.t :=
  match kws with
  | [] => None
  | (k, t) :: rest => if String.eqb k s then Some t else keyword_get s rest
  end.

(** [struct Scanner]; the [keywords] field is the constant [keywords]. *)
Record scanner := mkScanner {
  source : string;
  tokens : list token;
  start : nat;
  current : nat;
  line : nat
}.

(** [Scanner::new] *)
Definition new (source : string) : scanner := mkScanner source [] 0 0 1.

Definition with_tokens (sc : scanner) (ts : list token) : scanner :=
  mkScanner (source sc) ts (start sc) (current sc) (line sc).
Definition with_start (sc : scanner) (n : nat) : scanner :=
  mkScanner (source sc) (tokens sc) n (current sc) (line sc).
Definition with_current (sc : scanner) (n : nat) : scanner :=
  mkScanner (source sc) (tokens sc) (start sc) n (line sc).
Definition with_line (sc : scanner) (n : nat) : scanner :=
  mkScanner (source sc) (tokens sc) (start sc) (current sc) n.

Definition is_at_end (sc : scanner) : bool :=
  Nat.leb (String.length (source sc)) (current sc).

(** [self.source.chars().nth(i).unwrap()] *)
Definition char_at (sc : scanner) (i : nat) : ascii :=
  match String.get i (source sc) with
  | Some c => c
  | None => nul
  end.

Definition advance (sc : scanner) : ascii * scanner :=
  (char_at sc (current sc), with_current sc (S (current sc))).

Definition add_token_lit (token_type : TokenType.t) (literal : option token_literal)
    (sc : scanner) : scanner :=
  let text := substring (start sc) (current sc - start sc) (source sc) in
  with_tokens sc (tokens sc ++ [mkToken token_type text literal (line sc)]).

Definition add_token (token_type : TokenType.t) (sc : scanner) : scanner :=
  add_token_lit token_type None sc.

Definition char_match (sc : scanner) (expected : ascii) : bool * scanner :=
  if is_at_end sc then (false, sc)
  else if negb (Ascii.eqb (char_at sc (current sc)) expected) then (false, sc)
  else (true, with_current sc (S (current sc))).

Definition peek (sc : scanner) : ascii :=
  if is_at_end sc then nul else char_at sc (current sc).

Definition peek_next (sc : scanner) : ascii :=
  if Nat.leb (String.length (source sc)) (S (current sc)) then nul
  else char_at sc (S (current sc)).

(** The fuel of the loops below: more than the characters left. *)
Definition fuel_of (sc : scanner) : nat := S (String.length (source sc)).

(** [while pred(self.peek()) { self.advance(); }] *)
Fixpoint advance_while (fuel : nat) (pred : ascii -> bool) (sc : scanner)
  : outcome scanner unit :=
  match fuel with
  | O => NoFuel
  | S f => if pred (peek sc) then advance_while f pred (snd (advance sc)) else Done tt sc
  end.

(** The loop of a [//] comment. *)
Fixpoint comment_loop (fuel : nat) (sc : scanner) : outcome scanner unit :=
  match fuel with
  | O => NoFuel
  | S f =>
      if negb (Ascii.eqb (peek sc) newline) && negb (is_at_end sc)
      then comment_loop f (snd (advance sc))
      else Done tt sc
  end.

(** The loop of [string]. *)
Fixpoint string_loop (fuel : nat) (sc : scanner) : outcome scanner unit :=
  match fuel with
  | O => NoFuel
  | S f =>
      if negb (Ascii.eqb (peek sc) quote) && negb (is_at_end sc) then
        let sc1 := if Ascii.eqb (peek sc) newline then with_line sc (S (line sc)) else sc in
        string_loop f (snd (advance sc1))
      else Done tt sc
  end.

(** [Scanner::string] *)
Definition string_ (sc : scanner) : outcome scanner unit :=
  let? (_, sc1) := string_loop (fuel_of sc) sc in
  if is_at_end sc1 then Fail "Unterminated string" sc1
  else
    let sc2 := snd (advance sc1) in
    let value := substring (S (start sc2)) (current sc2 - 1 - S (start sc2)) (source sc2) in
    Done tt (add_token_lit TokenType.StringLit (Some (SValue value)) sc2).

(** [Scanner::number] *)
Definition number (sc : scanner) : outcome scanner unit :=
  let? (_, sc1) := advance_while (fuel_of sc) is_digit sc in
  let? (_, sc2) :=
    (if Ascii.eqb (peek sc1) "."%char && is_digit (peek_next sc1) then
       advance_while (fuel_of sc1) is_digit (snd (advance sc1))
     else Done tt sc1) in
  let text := substring (start sc2) (current sc2 - start sc2) (source sc2) in
  match parse_f64 text with
  | Some value => Done tt (add_token_lit TokenType.Number (Some (FValue value)) sc2)
  | None => Fail ("Could not parse number: " ++ text) sc2
  end.

(** [Scanner::identifier] *)
Definition identifier (sc : scanner) : outcome scanner unit :=
  let? (_, sc1) := advance_while (fuel_of sc) is_alphanumeric sc in
  let text := substring (start sc1) (current sc1 - start sc1) (source sc1) in
  match keyword_get text keywords with
  | Some t_type => Done tt (add_token t_type sc1)
  | None => Done tt (add_token TokenType.Identifier sc1)
  end.

(** [Scanner::scan_token]; the [todo!] on [/*] is a panic. *)
Definition scan_token (sc : scanner) : outcome scanner unit :=
  let (c, sc) := advance sc in
  match c with
  | "("%char => Done tt (add_token TokenType.LeftParen sc)
  | ")"%char => Done tt (add_token TokenType.RightParen sc)
  | "{"%char => Done tt (add_token TokenType.LeftBrace sc)
  | "}"%char => Done tt (add_token TokenType.RightBrace sc)
  | ","%char => Done tt (add_token TokenType.Comma sc)
  | "."%char => Done tt (add_token TokenType.Dot sc)
  | "-"%char => Done tt (add_token TokenType.Minus sc)
  | "+"%char => Done tt (add_token TokenType.Plus sc)
  | ";"%char => Done tt (add_token TokenType.Semicolon sc)
  | "*"%char => Done tt (add_token TokenType.Star sc)
  | "!"%char =>
      let (m, sc) := char_match sc "="%char in
      if m then Done tt (add_token TokenType.BangEqual sc)
      else Done tt (add_token TokenType.Bang sc)
  | "="%char =>
      let (m, sc) := char_match sc "="%char in
      if m then Done tt (add_token TokenType.EqualEqual sc)
      else Done tt (add_token TokenType.Equal sc)
  | "<"%char =>
      let (m, sc) := char_match sc "="%char in
      if m then Done tt (add_token TokenType.LessEqual sc)
      else Done tt (add_token TokenType.Less sc)
  | ">"%char =>
      let (m, sc) := char_match sc "="%char in
      if m then Done tt (add_token TokenType.GreaterEqual sc)
      else Done tt (add_token TokenType.Greater sc)
  | "/"%char =>
      let (m, sc) := char_match sc "/"%char in
      if m then comment_loop (fuel_of sc) sc
      else
        let (m2, sc) := char_match sc "*"%char in
        if m2 then Panic "not yet implemented: Add support for multiline comments"
        else Done tt (add_token TokenType.Slash sc)
  | " "%char => Done tt sc
  | _ =>
      if Ascii.eqb c carriage_return || Ascii.eqb c tab then Done tt sc
      else if Ascii.eqb c newline then Done tt (with_line sc (S (line sc)))
      else if Ascii.eqb c quote then string_ sc
      else if is_digit c then number sc
      else if is_alpha c then identifier sc
      else Fail ("Unrecognized char at line " ++ NilZero.string_of_uint (Nat.to_uint (line sc))
                 ++ ": " ++ String c EmptyString) sc
  end.

(** The loop of [scan_tokens]: an error is recorded and scanning goes on. *)
Fixpoint scan_loop (fuel : nat) (errors : list string) (sc : scanner)
  : outcome scanner (list string) :=
  match fuel with
  | O => NoFuel
  | S f =>
      if is_at_end sc then Done errors sc
      else
        let sc := with_start sc (current sc) in
        match scan_token sc with
        | Done _ sc1 => scan_loop f errors sc1
        | Fail msg sc1 => scan_loop f (errors ++ [msg]) sc1
        | Panic m => Panic m
        | NoFuel => NoFuel
        end
  end.

(** [Scanner::scan_tokens]: the [Eof] token is pushed in both cases; each
    error is followed by a newline in the joined message. *)
Definition scan_tokens (sc : scanner) : outcome scanner (list token) :=
  match scan_loop (fuel_of sc) [] sc with
  | Done errors sc1 =>
      let sc2 := with_tokens sc1 (tokens sc1 ++ [mkToken TokenType.Eof "" None (line sc1)]) in
      match errors with
      | [] => Done (tokens sc2) sc2
      | _ => Fail (String.concat "" (map (fun e => String.append e (String newline EmptyString)) errors)) sc2
      end
  | Fail m sc1 => Fail m sc1
  | Panic m => Panic m
  | NoFuel => NoFuel
  end.

End Scanner.

(** [Scanner::new(source).scan_tokens()] *)
Definition scan (source : string) : outcome Scanner.scanner (list token) :=
  Scanner.scan_tokens (Scanner.new source).

(** ** Running programs ([main.rs]) *)

(** [main::run]: parse a token stream, then interpret it in a fresh
    [Interpreter::new]. *)
Definition run (host : nat -> list literal_value -> literal_value + string)
    (fuel : nat) (toks : list token) : outcome interp unit :=
  match parse fuel toks with
  | Done stmts _ => interpret host fuel stmts interpreter_new
  | Fail m _ => Fail m interpreter_new
  | Panic m => Panic m
  | NoFuel => NoFuel
  end.

(** [main::run] on source text, in a given interpreter: scan, parse,
    interpret; a scan or parse error leaves the interpreter as it was. *)
Definition run_source (host : nat -> list literal_value -> literal_value + string)
    (fuel : nat) (st : interp) (contents : string) : outcome interp unit :=
  match scan contents with
  | Done tokens _ =>
      match parse fuel tokens with
      | Done statements _ => interpret host fuel statements st
      | Fail m _ => Fail m st
      | Panic m => Panic m
      | NoFuel => NoFuel
      end
  | Fail m _ => Fail m st
  | Panic m => Panic m
  | NoFuel => NoFuel
  end.

(** [clock_impl] reads the system time: here the time is a parameter. *)
Definition clock_host (now : float) (fn : nat) (args : list literal_value)
  : literal_value + string :=
  inl (Number now).

(** Token streams as the scanner produces them (all on line 1). *)
Definition tk (tt : TokenType.t) (lex : string) : token := mkToken tt lex None 1.
Definition t_id (x : string) : token := tk TokenType.Identifier x.
Definition t_num (x : float) : token := mkToken TokenType.Number "num" (Some (FValue x)) 1.
Definition t_str (s : string) : token := mkToken TokenType.StringLit s (Some (SValue s)) 1.
Definition t_lp := tk TokenType.LeftParen "(".
Definition t_rp := tk TokenType.RightParen ")".
Definition t_lb := tk TokenType.LeftBrace "{".
Definition t_rb := tk TokenType.RightBrace "}".
Definition t_semi := tk TokenType.Semicolon ";".
Definition t_comma := tk TokenType.Comma ",".
Definition t_eq := tk TokenType.Equal "=".
Definition t_eqeq := tk TokenType.EqualEqual "==".
Definition t_plus := tk TokenType.Plus "+".
Definition t_bang := tk TokenType.Bang "!".
Definition t_var := tk TokenType.Var "var".
Definition t_fun := tk TokenType.Fun "fun".
Definition t_if := tk TokenType.If "if".
Definition t_else := tk TokenType.Else "else".
Definition t_print := tk TokenType.Print "print".
Definition t_return := tk TokenType.Return "return".
Definition t_while := tk TokenType.While "while".
Definition t_true := tk TokenType.True "true".
Definition t_eof := mkToken TokenType.Eof "" None 1.

(** [if ("") print "t"; else print "f";] *)
Definition prog_if_empty : list token :=
  [t_if; t_lp; t_str ""; t_rp; t_print; t_str "t"; t_semi;
   t_else; t_print; t_str "f"; t_semi; t_eof].

(** [fun makeCounter() { var i = 0; fun inc() { i = i + 1; return i; }
     return inc; } var c = makeCounter(); print c(); print c(); print c();] *)
Definition prog_make_counter : list token :=
  [t_fun; t_id "makeCounter"; t_lp; t_rp; t_lb;
     t_var; t_id "i"; t_eq; t_num 0; t_semi;
     t_fun; t_id "inc"; t_lp; t_rp; t_lb;
       t_id "i"; t_eq; t_id "i"; t_plus; t_num 1; t_semi;
       t_return; t_id "i"; t_semi;
     t_rb;
     t_return; t_id "inc"; t_semi;
   t_rb;
   t_var; t_id "c"; t_eq; t_id "makeCounter"; t_lp; t_rp; t_semi;
   t_print; t_id "c"; t_lp; t_rp; t_semi;
   t_print; t_id "c"; t_lp; t_rp; t_semi;
   t_print; t_id "c"; t_lp; t_rp; t_semi;
   t_eof].

(** [fun f() { print y; } { var y = 1; f(); }] *)
Definition prog_dynamic_scope : list token :=
  [t_fun; t_id "f"; t_lp; t_rp; t_lb; t_print; t_id "y"; t_semi; t_rb;
   t_lb; t_var; t_id "y"; t_eq; t_num 1; t_semi;
     t_id "f"; t_lp; t_rp; t_semi; t_rb;
   t_eof].

(** [fun f() { return 1; print 2; } print f();] *)
Definition prog_return_then_print : list token :=
  [t_fun; t_id "f"; t_lp; t_rp; t_lb;
     t_return; t_num 1; t_semi; t_print; t_num 2; t_semi; t_rb;
   t_print; t_id "f"; t_lp; t_rp; t_semi; t_eof].

(** [fun first(n) { var i = 0; while (true) { if (i == n) return i;
     i = i + 1; } } print first(4);] *)
Definition prog_first : list token :=
  [t_fun; t_id "first"; t_lp; t_id "n"; t_rp; t_lb;
     t_var; t_id "i"; t_eq; t_num 0; t_semi;
     t_while; t_lp; t_true; t_rp; t_lb;
       t_if; t_lp; t_id "i"; t_eqeq; t_id "n"; t_rp;
         t_return; t_id "i"; t_semi;
       t_id "i"; t_eq; t_id "i"; t_plus; t_num 1; t_semi;
     t_rb;
   t_rb;
   t_print; t_id "first"; t_lp; t_num 4; t_rp; t_semi; t_eof].

(** [fun first(n) { var i = 0; while (i < 6) { if (i == n) return i;
     i = i + 1; } return 99; } print first(4);]: the loop of [prog_first]
    with a bound, so that the run ends. *)
Definition prog_first_bounded : list token :=
  [t_fun; t_id "first"; t_lp; t_id "n"; t_rp; t_lb;
     t_var; t_id "i"; t_eq; t_num 0; t_semi;
     t_while; t_lp; t_id "i"; tk TokenType.Less "<"; t_num 6; t_rp; t_lb;
       t_if; t_lp; t_id "i"; t_eqeq; t_id "n"; t_rp;
         t_return; t_id "i"; t_semi;
       t_id "i"; t_eq; t_id "i"; t_plus; t_num 1; t_semi;
     t_rb;
     t_return; t_num 99; t_semi;
   t_rb;
   t_print; t_id "first"; t_lp; t_num 4; t_rp; t_semi; t_eof].

(** [fun f(a) { print a; } f(1, 2);] *)
Definition prog_extra_argument : list token :=
  [t_fun; t_id "f"; t_lp; t_id "a"; t_rp; t_lb; t_print; t_id "a"; t_semi; t_rb;
   t_id "f"; t_lp; t_num 1; t_comma; t_num 2; t_rp; t_semi; t_eof].

(** [fun f(a) { print 0; } f();] *)
Definition prog_missing_argument : list token :=
  [t_fun; t_id "f"; t_lp; t_id "a"; t_rp; t_lb; t_print; t_num 0; t_semi; t_rb;
   t_id "f"; t_lp; t_rp; t_semi; t_eof].

(** [print clock(1);] *)
Definition prog_native_extra_argument : list token :=
  [t_print; t_id "clock"; t_lp; t_num 1; t_rp; t_semi; t_eof].

(** [x1, x2, ..., xn] with comma separators, for argument and parameter
    lists. *)
Fixpoint comma_list (n : nat) (item : nat -> token) : list token :=
  match n with
  | O => []
  | S O => [item O]
  | S m => comma_list m item ++ [t_comma; item m]
  end.

(** [f(0, 0, ..., 0);] with [n] arguments. *)
Definition prog_call_with (n : nat) : list token :=
  [t_id "f"; t_lp] ++ comma_list n (fun _ => t_num 0) ++ [t_rp; t_semi; t_eof].

(** Parameter names [p0], [p1], ... (distinct names are not needed by the
    parser; one name is used). *)
Definition param_tok (i : nat) : token := t_id "p".

(** [fun g(p, p, ..., p) {}] with [n] parameters. *)
Definition prog_fun_with (n : nat) : list token :=
  [t_fun; t_id "g"; t_lp] ++ comma_list n param_tok ++ [t_rp; t_lb; t_rb; t_eof].

(** [var l = fun (p, p, ..., p) {};] with [n] parameters. *)
Definition prog_lambda_with (n : nat) : list token :=
  [t_var; t_id "l"; t_eq; t_fun; t_lp] ++ comma_list n param_tok
    ++ [t_rp; t_lb; t_rb; t_semi; t_eof].

(** The values printed by a run that finishes without error. *)
Definition run_output (host : nat -> list literal_value -> literal_value + string)
    (fuel : nat) (toks : list token) : option (list literal_value) :=
  match run host fuel toks with
  | Done _ st => Some (output st)
  | _ => None
  end.

(** The parsed statements, when parsing succeeds. *)
Definition parse_ok (fuel : nat) (toks : list token) : option (list stmt) :=
  match parse fuel toks with
  | Done stmts _ => Some stmts
  | _ => None
  end.

(** The message of a parse that fails with an error. *)
Definition parse_error (fuel : nat) (toks : list token) : option string :=
  match parse fuel toks with
  | Fail m _ => Some m
  | _ => None
  end.

(** The cell of the chain from [p] that [Environment::assign] writes: the
    innermost one whose bindings contain [name]. *)
Fixpoint innermost_binder_aux (n : nat) (h : heap) (p : nat) (name : string)
  : option nat :=
  match n with
  | O => None
  | S n' =>
      match nth_error h p with
      | None => None
      | Some (Env vs enc) =>
          match values_get name vs, enc with
          | Some _, _ => Some p
          | None, Some q => innermost_binder_aux n' h q name
          | None, None => None
          end
      end
  end.

Definition innermost_binder (h : heap) (p : nat) (name : string) : option nat :=
  innermost_binder_aux (length h) h p name.

(** The binding of [name] in cell [r] itself (not its parents). *)
Definition cell_lookup (h : heap) (r : nat) (name : string) : option literal_value :=
  match nth_error h r with
  | Some (Env vs _) => values_get name vs
  | None => None
  end.

(** A successful step leaves the current cell where it was and only adds
    cells to the heap. *)
Definition preserves (st st' : interp) : Prop :=
  cur_env st' = cur_env st /\ length (heap_of st) <= length (heap_of st').

(** ** Auxiliary notions for the further properties *)

Definition number_string_pair (l r : literal_value) : Prop :=
  exists x s, (l = Number x /\ r = StringValue s) \/ (l = StringValue s /\ r = Number x).

Definition scopes_kept (st st' : interp) : Prop :=
  forall i vs enc, nth_error (heap_of st) i = Some (Env vs enc) ->
  exists vs', nth_error (heap_of st') i = Some (Env vs' enc) /\
    (forall y, values_get y vs <> None -> values_get y vs' <> None) /\
    (i <> cur_env st -> forall y, values_get y vs' <> None -> values_get y vs <> None).

Definition kept (st st' : interp) : Prop := preserves st st' /\ scopes_kept st st'.

Fixpoint chain_tokens (pairs : list (token * token)) : list token :=
  match pairs with
  | [] => []
  | (op, x) :: rest => op :: x :: chain_tokens rest
  end.

Definition chain_expr (mk : expr -> token -> expr -> expr) (e0 : expr)
    (pairs : list (token * token)) : expr :=
  fold_left (fun e opx => mk e (fst opx) (Variable_ (snd opx))) pairs e0.

Definition parses_operand (sub : parser -> outcome parser expr) (below : list TokenType.t) : Prop :=
  forall q, token_type (peek q) = TokenType.Identifier ->
    ~ In (token_type (peek (advance q))) below ->
    sub q = Done (Variable_ (peek q)) (advance q).

Definition below_factor := ([TokenType.LeftParen] ++ [TokenType.Slash; TokenType.Star])%list.
Definition below_term := (below_factor ++ [TokenType.Minus; TokenType.Plus])%list.
Definition below_comparison := (below_term ++ [TokenType.Greater; TokenType.GreaterEqual;
    TokenType.Less; TokenType.LessEqual])%list.
Definition below_equality := (below_comparison ++ [TokenType.BangEqual; TokenType.EqualEqual])%list.
Definition below_and := (below_equality ++ [TokenType.And])%list.

(** The cell [d] steps up the [enclosing] chain from [p], if the chain is
    that long. *)
Fixpoint ancestor (h : heap) (p d : nat) : option nat :=
  match d with
  | O => Some p
  | S d' =>
      match nth_error h p with
      | Some (Env _ (Some q)) => ancestor h q d'
      | _ => None
      end
  end.

Module ScanInv.
Import Scanner.

Fixpoint nl_count (s : string) : nat :=
  match s with
  | EmptyString => 0
  | String c s' => (if Ascii.eqb c newline then 1 else 0) + nl_count s'
  end.

Definition scanned_token_ok (t : token) : Prop :=
  ((token_type t = TokenType.Number \/ token_type t = TokenType.StringLit) -> from_token t <> None) /\
  (token_type t <> TokenType.Number -> token_type t <> TokenType.StringLit -> literal t = None) /\
  (token_type t = TokenType.Identifier -> keyword_get (lexeme t) keywords = None) /\
  token_type t <> TokenType.Eof.

Definition scan_inv (sc : scanner) : Prop :=
  current sc <= String.length (source sc) /\
  line sc = S (nl_count (substring 0 (current sc) (source sc))).

Definition same_buf (sc sc' : scanner) : Prop :=
  source sc' = source sc /\ tokens sc' = tokens sc /\ start sc' = start sc.

Definition step_ok {X} (sc : scanner) (r : outcome scanner X) : Prop :=
  match r with
  | Done _ sc' | Fail _ sc' =>
      source sc' = source sc /\
      (exists new, tokens sc' = (tokens sc ++ new)%list /\ Forall scanned_token_ok new) /\
      (scan_inv sc -> scan_inv sc')
  | _ => True
  end.

End ScanInv.

(** * Properties *)

(** ** Truthiness *)

Lemma is_truthy_false_iff (v : literal_value) :
  is_truthy v = Some false <->
  v = LFalse \/ v = Nil \/ v = StringValue "" \/
  exists x, v = Number x /\ PrimFloat.eqb x 0%float = true.
Proof.
  destruct v as [x|s| | | |c]; simpl; split; intros H.
  - right; right; right. exists x. split; [reflexivity|].
    destruct (PrimFloat.eqb x 0%float); [reflexivity|discriminate].
  - destruct H as [H|[H|[H|[y [Hy Hz]]]]]; try discriminate.
    injection Hy as <-. rewrite Hz. reflexivity.
  - right; right; left.
    destruct (String.eqb s "") eqn:E; [|discriminate].
    apply String.eqb_eq in E. subst. reflexivity.
  - destruct H as [H|[H|[H|[y [Hy Hz]]]]]; try discriminate.
    injection H as ->. reflexivity.
  - discriminate.
  - destruct H as [H|[H|[H|[y [Hy Hz]]]]]; discriminate.
  - left; reflexivity.
  - reflexivity.
  - right; left; reflexivity.
  - reflexivity.
  - discriminate.
  - destruct H as [H|[H|[H|[y [Hy Hz]]]]]; discriminate.
Qed.

Lemma is_truthy_none_iff (v : literal_value) :
  is_truthy v = None <-> exists c, v = Callable c.
Proof.
  destruct v as [x|s| | | |c]; simpl; split; intros H;
    try discriminate; try (destruct H; discriminate).
  exists c. reflexivity.
  reflexivity.
Qed.

(** C1 (counterexample): the number [0] is a value other than [false] and
    [nil] whose truthiness is [false]. *)
Lemma C1_counterexample :
  ~ (forall v, v <> LFalse -> v <> Nil -> is_truthy v = Some true).
Proof.
  intros H. specialize (H (Number 0%float)).
  assert (is_truthy (Number 0%float) = Some false) as E by reflexivity.
  rewrite H in E; [discriminate | discriminate | discriminate].
Qed.

(** C1 (amended): [false], [nil], the numbers equal to [0] and the empty
    string are falsy; asking the truthiness of a callable panics; every
    other value is truthy.  So [if ("") print "t"; else print "f";] takes the
    else-branch and prints [f]. *)
Theorem C1_truthiness_zero_and_empty_falsy :
  (forall v, is_truthy v = Some false <->
     v = LFalse \/ v = Nil \/ v = StringValue "" \/
     exists x, v = Number x /\ PrimFloat.eqb x 0%float = true) /\
  (forall v, is_truthy v = None <-> exists c, v = Callable c) /\
  (forall v, is_truthy v = Some true <->
     is_truthy v <> Some false /\ (forall c, v <> Callable c)) /\
  (forall host, run_output host 100 prog_if_empty = Some [StringValue "f"]).
Proof.
  split; [exact is_truthy_false_iff|].
  split; [exact is_truthy_none_iff|].
  split.
  - intros v. split.
    + intros H. split; [rewrite H; discriminate|].
      intros c ->. discriminate.
    + intros [H1 H2]. destruct (is_truthy v) as [[|]|] eqn:E.
      * reflexivity.
      * contradiction.
      * apply is_truthy_none_iff in E. destruct E as [c ->].
        exfalso; exact (H2 c eq_refl).
  - intros host. vm_compute. reflexivity.
Qed.

(** ** Logical negation *)

(** C9 (counterexample): in a fresh interpreter, [!clock] panics, as
    [is_truthy] panics on the callable [clock]. *)
Lemma C9_counterexample :
  evaluate (clock_host 0%float) 5 (Unary t_bang (Variable_ (t_id "clock")))
    interpreter_new = Panic truthy_panic.
Proof. vm_compute. reflexivity. Qed.

(** C9 (amended): when the operand evaluates to a number, string, boolean
    or nil, [!x] returns the negation of its truthiness without error or
    panic; when it evaluates to a callable, [!x] panics. *)
Theorem C9_bang_negates_truthiness :
  forall host fuel (op : token) (e : expr) st v st',
    token_type op = TokenType.Bang ->
    evaluate host fuel e st = Done v st' ->
    (forall b, is_truthy v = Some b ->
       evaluate host (S fuel) (Unary op e) st = Done (from_bool (negb b)) st') /\
    ((exists c, v = Callable c) ->
       evaluate host (S fuel) (Unary op e) st = Panic truthy_panic).
Proof.
  intros host fuel op e st v st' Hop He.
  simpl. rewrite He. simpl. rewrite Hop.
  split.
  - intros b Hb. destruct v; simpl in Hb |- *; try discriminate;
      injection Hb as <-; reflexivity.
  - intros [c ->]. reflexivity.
Qed.

Lemma C9_bang_negates_truthiness_witness :
  token_type t_bang = TokenType.Bang /\
  evaluate (clock_host 0%float) 1 (Literal (Number 0%float)) interpreter_new
    = Done (Number 0%float) interpreter_new /\
  evaluate (clock_host 0%float) 2 (Unary t_bang (Literal (Number 0%float)))
    interpreter_new = Done LTrue interpreter_new.
Proof.
  split; [reflexivity|]. split; [reflexivity|].
  apply (proj1 (C9_bang_negates_truthiness (clock_host 0%float) 1 t_bang
                  (Literal (Number 0%float)) interpreter_new (Number 0%float)
                  interpreter_new eq_refl eq_refl) false eq_refl).
Defined.

(** ** Heap and environment lemmas *)

Lemma heap_set_length h p e : length (heap_set h p e) = length h.
Proof. revert p; induction h as [|x h IH]; intros [|p]; simpl; auto. Qed.

Lemma nth_error_heap_set_same h p e old :
  nth_error h p = Some old -> nth_error (heap_set h p e) p = Some e.
Proof.
  revert p; induction h as [|x h IH]; intros [|p] H; simpl in *;
    try discriminate; auto.
Qed.

Lemma nth_error_heap_set_other h p e r :
  r <> p -> nth_error (heap_set h p e) r = nth_error h r.
Proof.
  revert p r; induction h as [|x h IH]; intros [|p] [|r] H; simpl; auto.
  all: try (exfalso; apply H; reflexivity).
  all: apply IH; intros ->; apply H; reflexivity.
Qed.

Lemma values_get_insert x v vs y :
  values_get y (values_insert x v vs) =
  if String.eqb x y then Some v else values_get y vs.
Proof.
  induction vs as [|[k w] rest IH]; simpl.
  - destruct (String.eqb x y); reflexivity.
  - destruct (String.eqb_spec k x) as [->|Hkx]; simpl.
    + destruct (String.eqb x y); reflexivity.
    + rewrite IH. destruct (String.eqb_spec k y) as [->|Hky].
      * destruct (String.eqb_spec x y) as [->|]; [contradiction|reflexivity].
      * reflexivity.
Qed.

Lemma env_assign_aux_length n h p x v h' :
  env_assign_aux n h p x v = Some h' -> length h' = length h.
Proof.
  revert p; induction n as [|n IH]; intros p H; simpl in H; [discriminate|].
  destruct (nth_error h p) as [[vs enc]|]; [|discriminate].
  destruct (values_get x vs); [injection H as <-; apply heap_set_length|].
  destruct enc as [q|]; [eapply IH; eauto|discriminate].
Qed.

Lemma env_assign_length h p x v h' :
  env_assign h p x v = Some h' -> length h' = length h.
Proof. apply env_assign_aux_length. Qed.

(** [Environment::assign] fails exactly where [Environment::get] does. *)
Lemma env_assign_aux_none n h p x v :
  env_get_aux n h p x = None -> env_assign_aux n h p x v = None.
Proof.
  revert p; induction n as [|n IH]; intros p H; simpl in *; [reflexivity|].
  destruct (nth_error h p) as [[vs enc]|]; [|reflexivity].
  destruct (values_get x vs); [discriminate|].
  destruct enc; auto.
Qed.

(** [Environment::assign] overwrites the binding in the innermost cell that
    binds the name. *)
Lemma env_assign_aux_innermost n h p x v q :
  innermost_binder_aux n h p x = Some q ->
  exists vs enc w,
    nth_error h q = Some (Env vs enc) /\ values_get x vs = Some w /\
    env_assign_aux n h p x v = Some (heap_set h q (Env (values_insert x v vs) enc)).
Proof.
  revert p; induction n as [|n IH]; intros p H; simpl in *; [discriminate|].
  destruct (nth_error h p) as [[vs enc]|] eqn:Ep; [|discriminate].
  destruct (values_get x vs) as [w|] eqn:Ex.
  - injection H as <-. exists vs, enc, w. auto.
  - destruct enc; [apply IH; exact H|discriminate].
Qed.

(** Overwriting a bound name adds no binding to any cell. *)
Lemma overwrite_keeps_bindings h q vs enc x v w :
  nth_error h q = Some (Env vs enc) -> values_get x vs = Some w ->
  forall r y,
    (exists u, cell_lookup (heap_set h q (Env (values_insert x v vs) enc)) r y = Some u)
    <-> (exists u, cell_lookup h r y = Some u).
Proof.
  intros Hq Hx r y. unfold cell_lookup.
  destruct (Nat.eq_dec r q) as [->|Hrq].
  - rewrite (nth_error_heap_set_same _ _ _ _ Hq), Hq, values_get_insert.
    destruct (String.eqb_spec x y) as [->|].
    + split; intros _; [exists w; exact Hx|exists v; reflexivity].
    + reflexivity.
  - rewrite (nth_error_heap_set_other _ _ _ _ Hrq). reflexivity.
Qed.

(** [Environment::define] on the current cell makes the name readable there. *)
Lemma define_current_get st x v :
  cur_env st < length (heap_of st) ->
  env_get (heap_of (define_current st x v)) (cur_env st) x = Some v /\
  cell_lookup (heap_of (define_current st x v)) (cur_env st) x = Some v.
Proof.
  intros Hlt. unfold define_current, set_heap, env_get, cell_lookup, current_frame.
  simpl. rewrite heap_set_length.
  destruct (nth_error (heap_of st) (cur_env st)) as [[vs enc]|] eqn:E.
  - rewrite (nth_error_heap_set_same _ _ _ _ E). simpl.
    destruct (length (heap_of st)) as [|n] eqn:L; [lia|]. simpl.
    rewrite (nth_error_heap_set_same _ _ _ _ E), values_get_insert, String.eqb_refl.
    auto.
  - apply nth_error_None in E. lia.
Qed.

Lemma bind_done {S A B} (r : outcome S A) (k : A -> S -> outcome S B) b s :
  bind r k = Done b s -> exists a s1, r = Done a s1 /\ k a s1 = Done b s.
Proof. destruct r; simpl; intros H; try discriminate. eauto. Qed.

(** Inverting a successful run of the evaluator step by step. *)
Ltac inv_done :=
  repeat match goal with
  | H : bind _ _ = Done _ _ |- _ =>
      let a := fresh "a" in let s := fresh "s" in let E := fresh "E" in
      apply bind_done in H; destruct H as (a & s & E & H)
  | H : Done _ _ = Done _ _ |- _ => inversion H; subst; clear H
  | H : (match ?x with _ => _ end) = Done _ _ |- _ =>
      let E := fresh "M" in destruct x eqn:E; try discriminate
  | H : (if ?b then _ else _) = Done _ _ |- _ =>
      let E := fresh "B" in destruct b eqn:E; try discriminate
  end.

(** ** Successful evaluation restores the current environment *)

Section Preservation.

Variable host : nat -> list literal_value -> literal_value + string.

Lemma success_preserves_env : forall fuel,
  (forall e st v st', evaluate host fuel e st = Done v st' -> preserves st st') /\
  (forall es st vs st', evaluate_args host fuel es st = Done vs st' -> preserves st st') /\
  (forall c args st v st', call host fuel c args st = Done v st' -> preserves st st') /\
  (forall ss st u st', interpret host fuel ss st = Done u st' -> preserves st st') /\
  (forall s st u st', execute host fuel s st = Done u st' -> preserves st st') /\
  (forall cond body flag st u st',
     run_while host fuel cond body flag st = Done u st' -> preserves st st').
Proof.
  induction fuel as [|f IH].
  { repeat split; intros; discriminate. }
  destruct IH as (IHe & IHa & IHc & IHi & IHx & IHw).
  repeat split; intros.
  all: match goal with H : _ = Done _ _ |- _ =>
         cbn [evaluate evaluate_args call interpret execute run_while] in H end.
  all: inv_done.
  all: repeat match goal with
       | E : evaluate host _ _ _ = Done _ _ |- _ => apply IHe in E
       | E : evaluate_args host _ _ _ = Done _ _ |- _ => apply IHa in E
       | E : call host _ _ _ _ = Done _ _ |- _ => apply IHc in E
       | E : interpret host _ _ _ = Done _ _ |- _ => apply IHi in E
       | E : execute host _ _ _ = Done _ _ |- _ => apply IHx in E
       | E : run_while host _ _ _ _ _ = Done _ _ |- _ => apply IHw in E
       | E : env_assign _ _ _ _ = Some _ |- _ => apply env_assign_length in E
       end.
  all: unfold preserves, define_current, set_env, set_heap, set_return, emit,
         heap_alloc in *; cbn in *.
  all: repeat match goal with H : (_, _) = (_, _) |- _ => injection H as <- <- end.
  all: rewrite ?heap_set_length, ?length_app in *; cbn in *.
  all: intuition lia.
Qed.

Lemma evaluate_preserves fuel e st v st' :
  evaluate host fuel e st = Done v st' -> preserves st st'.
Proof. apply (success_preserves_env fuel). Qed.

Lemma interpret_preserves fuel ss st u st' :
  interpret host fuel ss st = Done u st' -> preserves st st'.
Proof. apply (success_preserves_env fuel). Qed.

End Preservation.

Lemma cell_lookup_assign h p x u w :
  cell_lookup h p x = Some u ->
  exists h', env_assign h p x w = Some h'.
Proof.
  unfold cell_lookup, env_assign.
  destruct (nth_error h p) as [[vs enc]|] eqn:E; [|discriminate].
  intros Hx.
  assert (p < length h) as Hlt by (apply nth_error_Some; rewrite E; discriminate).
  destruct (length h) as [|n]; [lia|]. simpl. rewrite E, Hx. eauto.
Qed.

(** ** Blocks restore the environment *)

(** C7: a [Block] runs its statements in a fresh cell (the next free one)
    whose parent is the current cell, and puts the previous current cell
    back whether the statements succeed or fail with a runtime error; so a
    program that runs to completion ends in the global environment (cell
    0). *)
Theorem C7_block_restores_environment :
  forall host fuel stmts st,
    execute host (S fuel) (Block stmts) st =
      match interpret host fuel stmts
              (mkInterp (length (heap_of st)) (return_value st)
                 (heap_of st ++ [Env [] (Some (cur_env st))]) (output st)) with
      | Done _ st1 => Done tt (set_env st1 (cur_env st))
      | Fail m st1 => Fail m (set_env st1 (cur_env st))
      | Panic m => Panic m
      | NoFuel => NoFuel
      end /\
    (forall st', execute host (S fuel) (Block stmts) st = Done tt st' ->
       cur_env st' = cur_env st) /\
    (forall m st', execute host (S fuel) (Block stmts) st = Fail m st' ->
       cur_env st' = cur_env st) /\
    (forall toks st', run host fuel toks = Done tt st' ->
       cur_env st' = cur_env interpreter_new).
Proof.
  intros host fuel stmts st.
  assert (Hdef : execute host (S fuel) (Block stmts) st =
      match interpret host fuel stmts
              (mkInterp (length (heap_of st)) (return_value st)
                 (heap_of st ++ [Env [] (Some (cur_env st))]) (output st)) with
      | Done _ st1 => Done tt (set_env st1 (cur_env st))
      | Fail m st1 => Fail m (set_env st1 (cur_env st))
      | Panic m => Panic m
      | NoFuel => NoFuel
      end) by reflexivity.
  split; [exact Hdef|].
  split; [|split].
  - intros st' H. rewrite Hdef in H.
    destruct (interpret _ _ _ _); inversion H; reflexivity.
  - intros m st' H. rewrite Hdef in H.
    destruct (interpret _ _ _ _); inversion H; reflexivity.
  - intros toks st' H. unfold run in H.
    destruct (parse fuel toks); try discriminate.
    apply interpret_preserves in H. apply H.
Qed.

Lemma C7_block_restores_environment_witness :
  exists st',
    execute (clock_host 0%float) 4 (Block [Var (t_id "y") (Literal Nil)])
      interpreter_new = Done tt st' /\
    cur_env st' = cur_env interpreter_new.
Proof.
  destruct (C7_block_restores_environment (clock_host 0%float) 3
              [Var (t_id "y") (Literal Nil)] interpreter_new) as (_ & H1 & _ & _).
  eexists. split.
  - vm_compute. reflexivity.
  - apply H1. vm_compute. reflexivity.
Defined.

(** ** Variables: reading, declaring and assigning *)

(** C6: reading an undeclared name fails; assigning a name that no cell of
    the chain binds (after its right-hand side is evaluated) fails and
    changes nothing; after [var x = e;] reading [x] gives the value of [e]
    and assigning [x] succeeds; an assignment overwrites the binding in the
    innermost cell that binds the name, returns the assigned value and adds
    no binding to any cell. *)
Theorem C6_undeclared_and_assignment :
  forall host fuel (tok : token) (e : expr) st v st1,
    cur_env st < length (heap_of st) ->
    evaluate host fuel e st = Done v st1 ->
    (env_get (heap_of st) (cur_env st) (lexeme tok) = None ->
       exists m, evaluate host 1 (Variable_ tok) st = Fail m st) /\
    (env_get (heap_of st1) (cur_env st1) (lexeme tok) = None ->
       exists m, evaluate host (S fuel) (Assign tok e) st = Fail m st1) /\
    (execute host (S fuel) (Var tok e) st = Done tt (define_current st1 (lexeme tok) v) /\
     evaluate host 1 (Variable_ tok) (define_current st1 (lexeme tok) v)
       = Done v (define_current st1 (lexeme tok) v) /\
     forall w, exists st2,
       evaluate host 2 (Assign tok (Literal w)) (define_current st1 (lexeme tok) v)
         = Done w st2) /\
    (forall q, innermost_binder (heap_of st1) (cur_env st1) (lexeme tok) = Some q ->
       exists vs enc,
         nth_error (heap_of st1) q = Some (Env vs enc) /\
         evaluate host (S fuel) (Assign tok e) st
           = Done v (set_heap st1 (heap_set (heap_of st1) q
                                     (Env (values_insert (lexeme tok) v vs) enc))) /\
         forall r y,
           (exists u, cell_lookup (heap_set (heap_of st1) q
                        (Env (values_insert (lexeme tok) v vs) enc)) r y = Some u)
           <-> (exists u, cell_lookup (heap_of st1) r y = Some u)).
Proof.
  intros host fuel tok e st v st1 Hwf He.
  pose proof (evaluate_preserves host fuel e st v st1 He) as [Henv Hlen].
  assert (Hwf1 : cur_env st1 < length (heap_of st1)) by lia.
  split; [|split; [|split]].
  - intros Hn. cbn. rewrite Hn. eexists. reflexivity.
  - intros Hn. cbn [evaluate]. rewrite He. cbn [bind].
    unfold env_get in Hn. unfold env_assign.
    rewrite (env_assign_aux_none _ _ _ _ v Hn). eexists. reflexivity.
  - destruct (define_current_get st1 (lexeme tok) v Hwf1) as [Hget Hcell].
    split; [cbn [execute]; rewrite He; reflexivity|].
    split.
    + cbn [evaluate]. change (cur_env (define_current st1 (lexeme tok) v))
        with (cur_env st1). rewrite Hget. reflexivity.
    + intros w. cbn [evaluate bind].
      change (cur_env (define_current st1 (lexeme tok) v)) with (cur_env st1).
      destruct (cell_lookup_assign _ _ _ _ w Hcell) as [h' Hh'].
      rewrite Hh'. eexists. reflexivity.
  - intros q Hq.
    destruct (env_assign_aux_innermost _ _ _ _ v _ Hq) as (vs & enc & w & Hnth & Hx & Ha).
    exists vs, enc. split; [exact Hnth|]. split.
    + cbn [evaluate]. rewrite He. cbn [bind]. unfold env_assign. rewrite Ha.
      reflexivity.
    + apply (overwrite_keeps_bindings _ _ _ _ _ _ _ Hnth Hx).
Qed.

Lemma C6_undeclared_and_assignment_witness :
  0 < length (heap_of interpreter_new) /\
  evaluate (clock_host 0%float) 1 (Literal (Number 1%float)) interpreter_new
    = Done (Number 1%float) interpreter_new /\
  (exists m, evaluate (clock_host 0%float) 1 (Variable_ (t_id "x")) interpreter_new
               = Fail m interpreter_new).
Proof.
  split; [vm_compute; lia|]. split; [reflexivity|].
  destruct (C6_undeclared_and_assignment (clock_host 0%float) 1 (t_id "x")
              (Literal (Number 1%float)) interpreter_new (Number 1%float)
              interpreter_new ltac:(vm_compute; lia) eq_refl) as (Ha & _ & _ & _).
  apply Ha. vm_compute. reflexivity.
Defined.

(** ** Declarations without an initializer *)

(** C10: [var x;] parses (whatever follows it) to a [Var] statement whose
    initializer is the literal nil, and executing that statement binds [x]
    to nil in the current cell, so that reading [x] afterwards gives nil. *)
Theorem C10_var_without_initializer_is_nil :
  forall host f fuel x l l' rest st,
    declaration (S (S f))
      (mkParser (t_var :: mkToken TokenType.Identifier x None l
                   :: mkToken TokenType.Semicolon ";" None l' :: rest) 0)
    = Done (Var (mkToken TokenType.Identifier x None l) (Literal Nil))
        (mkParser (t_var :: mkToken TokenType.Identifier x None l
                     :: mkToken TokenType.Semicolon ";" None l' :: rest) 3) /\
    (cur_env st < length (heap_of st) ->
     execute host (S (S fuel)) (Var (mkToken TokenType.Identifier x None l) (Literal Nil)) st
       = Done tt (define_current st x Nil) /\
     evaluate host 1 (Variable_ (mkToken TokenType.Identifier x None l))
       (define_current st x Nil) = Done Nil (define_current st x Nil)).
Proof.
  intros host f fuel x l l' rest st. split; [reflexivity|].
  intros Hwf. split; [reflexivity|].
  destruct (define_current_get st x Nil Hwf) as [Hget _].
  cbn [evaluate lexeme].
  change (cur_env (define_current st x Nil)) with (cur_env st).
  rewrite Hget. reflexivity.
Qed.

Lemma C10_var_without_initializer_is_nil_witness :
  0 < length (heap_of interpreter_new) /\
  evaluate (clock_host 0%float) 1 (Variable_ (mkToken TokenType.Identifier "x" None 1))
    (define_current interpreter_new "x" Nil)
  = Done Nil (define_current interpreter_new "x" Nil).
Proof.
  assert (Hwf : 0 < length (heap_of interpreter_new)) by (vm_compute; lia).
  split; [exact Hwf|].
  apply (C10_var_without_initializer_is_nil (clock_host 0%float) 0 0 "x" 1 1
           [t_eof] interpreter_new).
  exact Hwf.
Defined.

(** ** Closures, calls and returns on concrete programs *)

(** C2: a closure holds a copy of the cell that was current at its
    definition ([self.environment.borrow().clone()]), and each call starts
    from a fresh copy of it, so a write to a captured variable is lost when
    the call returns: the makeCounter program prints 1 three times. *)
Theorem C2_make_counter_prints_one_each_time :
  forall host,
    run_output host 400 prog_make_counter
    = Some [Number 1%float; Number 1%float; Number 1%float].
Proof. intros host. vm_compute. reflexivity. Qed.

(** C3: a call runs the body in the closure copy extended with the
    bindings of the caller's current cell, so the body of [f] in
    [fun f() { print y; } { var y = 1; f(); }] reads the [y] that only the
    caller's block binds, and prints 1. *)
Theorem C3_body_reads_caller_binding :
  forall host,
    run_output host 400 prog_dynamic_scope = Some [Number 1%float].
Proof. intros host. vm_compute. reflexivity. Qed.

(** C4: neither a statement sequence nor a [while] loop looks at the
    return slot, so statements after a [return] still run:
    [fun f() { return 1; print 2; } print f();] prints 2 then 1, and the
    bounded variant of [first] keeps looping after [return i] and returns
    99 instead of 4. *)
Theorem C4_statements_after_return_run :
  forall host,
    run_output host 400 prog_return_then_print
      = Some [Number 2%float; Number 1%float] /\
    run_output host 2000 prog_first_bounded = Some [Number 99%float].
Proof. intros host. split; vm_compute; reflexivity. Qed.

(** C5: a call checks no arity: an extra argument to a user function is
    dropped, a missing one leaves the parameter unbound, and a native
    function takes any number of arguments; all three programs run without
    error. *)
Theorem C5_arity_not_checked :
  forall host now,
    run_output host 400 prog_extra_argument = Some [Number 1%float] /\
    run_output host 400 prog_missing_argument = Some [Number 0%float] /\
    run_output (clock_host now) 400 prog_native_extra_argument = Some [Number now].
Proof. intros host now. split; [|split]; vm_compute; reflexivity. Qed.

(** C8: [finish_call] checks the count after adding an argument, so a call
    with 255 arguments is refused, while the parameter lists of functions
    and lambdas (checked before each parameter is added) take 255
    parameters and refuse 256; a call with 254 arguments parses. *)
Theorem C8_call_with_255_arguments_rejected :
  parse_error 2000 (prog_call_with 255)
    = Some "Functions cannot have more than 255 arguments" /\
  parse_ok 2000 (prog_call_with 254) <> None /\
  parse_ok 2000 (prog_fun_with 255) <> None /\
  parse_ok 2000 (prog_lambda_with 255) <> None /\
  parse_error 2000 (prog_fun_with 256) = Some "Can't have more than 255 parameters." /\
  parse_error 2000 (prog_lambda_with 256)
    = Some "Can't have more than 255 arguments in a lambda function.".
Proof.
  repeat split; vm_compute; first [reflexivity | discriminate].
Qed.

(** * Further properties *)

(** ** Environments and operators *)

Lemma env_assign_aux_shape n h p x v h' :
  env_assign_aux n h p x v = Some h' ->
  exists r vs enc w,
    nth_error h r = Some (Env vs enc) /\ values_get x vs = Some w /\
    h' = heap_set h r (Env (values_insert x v vs) enc).
Proof.
  revert p; induction n as [|n IH]; intros p H; simpl in H; [discriminate|].
  destruct (nth_error h p) as [[vs enc]|] eqn:Ep; [|discriminate].
  destruct (values_get x vs) as [w|] eqn:Ex.
  - injection H as <-. exists p, vs, enc, w. auto.
  - destruct enc as [q|]; [exact (IH q H)|discriminate].
Qed.

Lemma env_assign_aux_get n h p x v h' :
  env_assign_aux n h p x v = Some h' -> env_get_aux n h' p x = Some v.
Proof.
  revert p; induction n as [|n IH]; intros p H; simpl in H; [discriminate|].
  destruct (nth_error h p) as [[vs enc]|] eqn:Ep; [|discriminate].
  destruct (values_get x vs) as [w|] eqn:Ex.
  - injection H as <-. simpl.
    rewrite (nth_error_heap_set_same _ _ _ _ Ep), values_get_insert, String.eqb_refl.
    reflexivity.
  - destruct enc as [q|]; [|discriminate].
    destruct (env_assign_aux_shape _ _ _ _ _ _ H) as (r & vs' & enc' & w & Er & Exr & ->).
    assert (Hrp : p <> r) by (intros ->; congruence).
    simpl. rewrite (nth_error_heap_set_other _ _ _ _ Hrp), Ep, Ex.
    apply IH. exact H.
Qed.

Lemma env_get_aux_heap_set_same_binding n h r vs vs' enc y :
  nth_error h r = Some (Env vs enc) -> values_get y vs' = values_get y vs ->
  forall q, env_get_aux n (heap_set h r (Env vs' enc)) q y = env_get_aux n h q y.
Proof.
  intros Hr Hy. induction n as [|n IH]; intros q; simpl; [reflexivity|].
  destruct (Nat.eq_dec q r) as [->|Hqr].
  - rewrite (nth_error_heap_set_same _ _ _ _ Hr), Hr, Hy.
    destruct (values_get y vs); [reflexivity|]. destruct enc; auto.
  - rewrite (nth_error_heap_set_other _ _ _ _ Hqr).
    destruct (nth_error h q) as [[vs2 enc2]|]; [|reflexivity].
    destruct (values_get y vs2); [reflexivity|]. destruct enc2; auto.
Qed.

Lemma env_get_aux_assign_some n h p x u v :
  env_get_aux n h p x = Some u -> exists h', env_assign_aux n h p x v = Some h'.
Proof.
  revert p; induction n as [|n IH]; intros p H; simpl in *; [discriminate|].
  destruct (nth_error h p) as [[vs enc]|]; [|discriminate].
  destruct (values_get x vs); [eauto|].
  destruct enc; [eauto|discriminate].
Qed.

(** [Environment::assign] followed by [Environment::get]: once an
    assignment from cell [p] succeeds, reading the name from [p] gives the
    assigned value, and every other name reads as before from every cell. *)
Theorem env_assign_then_get h p x v h' :
  env_assign h p x v = Some h' ->
  env_get h' p x = Some v /\
  (forall q y, y <> x -> env_get h' q y = env_get h q y).
Proof.
  intros H. unfold env_get. rewrite (env_assign_length _ _ _ _ _ H).
  split; [exact (env_assign_aux_get _ _ _ _ _ _ H)|].
  intros q y Hyx.
  destruct (env_assign_aux_shape _ _ _ _ _ _ H) as (r & vs & enc & w & Er & Ex & ->).
  apply (env_get_aux_heap_set_same_binding _ _ _ _ _ _ _ Er).
  rewrite values_get_insert.
  destruct (String.eqb_spec x y) as [->|]; [contradiction|reflexivity].
Qed.

Lemma env_assign_then_get_witness :
  env_assign [Env [("x", Nil)] None] 0 "x" (Number 1%float)
    = Some [Env [("x", Number 1%float)] None] /\
  env_get [Env [("x", Number 1%float)] None] 0 "x" = Some (Number 1%float).
Proof.
  assert (H : env_assign [Env [("x", Nil)] None] 0 "x" (Number 1%float)
                = Some [Env [("x", Number 1%float)] None]) by (vm_compute; reflexivity).
  split; [exact H|].
  exact (proj1 (env_assign_then_get _ _ _ _ _ H)).
Defined.

(** [Environment::assign] returns [false] exactly when [Environment::get]
    finds no binding of the name along the chain. *)
Theorem env_assign_fails_iff_get_fails h p x v :
  env_assign h p x v = None <-> env_get h p x = None.
Proof.
  unfold env_assign, env_get. split.
  - intros H. destruct (env_get_aux (length h) h p x) as [u|] eqn:E; [|reflexivity].
    destruct (env_get_aux_assign_some _ _ _ _ _ v E) as [h' Hh']. congruence.
  - apply env_assign_aux_none.
Qed.

(** [Environment::get_at] recurses on the enclosing cell with the same,
    undecremented distance, so on a well-formed heap every call with a
    positive distance walks to the root cell and panics. *)
Theorem get_at_positive_distance_panics h p d name :
  heap_wf h -> p < length h ->
  get_at h p (S d) name = Panic "Tried to access ancestor too deep.".
Proof.
  intros Hwf. unfold get_at.
  assert (forall n p, p < n -> p < length h ->
            env_get_at n h p (S d) name = Panic "Tried to access ancestor too deep.")
    as Hgen.
  { induction n as [|n IH]; intros p' Hn Hl; [lia|]. simpl.
    destruct (nth_error h p') as [[vs enc]|] eqn:E.
    - destruct enc as [q|]; [|reflexivity].
      pose proof (Hwf _ _ _ E). apply IH; lia.
    - apply nth_error_None in E. lia. }
  intros Hp. apply Hgen; assumption.
Qed.

Lemma get_at_positive_distance_panics_witness :
  get_at [Env [("x", Nil)] None; Env [] (Some 0)] 1 1 "x"
    = Panic "Tried to access ancestor too deep.".
Proof.
  apply get_at_positive_distance_panics.
  - intros [|[|i]] vs q H; [discriminate|injection H as _ <-; lia|destruct i; discriminate].
  - simpl. lia.
Defined.

(** [Environment::assign_at] decrements the distance at each step: it
    assigns in the cell exactly [d] steps up the chain, and panics when the
    chain is shorter. *)
Theorem assign_at_walks_distance h p d x v :
  heap_wf h -> p < length h ->
  assign_at h p d x v =
  match ancestor h p d with
  | Some a => Done (env_assign h a x v) tt
  | None => Panic "Tried to access ancestor too deep"
  end.
Proof.
  intros Hwf. unfold assign_at.
  assert (forall n p d, p < n -> p < length h ->
            env_assign_at n h p d x v =
            match ancestor h p d with
            | Some a => Done (env_assign h a x v) tt
            | None => Panic "Tried to access ancestor too deep"
            end) as Hgen.
  { induction n as [|n IH]; intros p' d' Hn Hl; [lia|]. simpl.
    destruct (nth_error h p') as [[vs enc]|] eqn:E.
    - destruct d' as [|d']; [reflexivity|]. simpl. rewrite E.
      destruct enc as [q|]; [|reflexivity].
      pose proof (Hwf _ _ _ E). apply IH; lia.
    - apply nth_error_None in E. lia. }
  intros Hp. apply Hgen; assumption.
Qed.

Lemma assign_at_walks_distance_witness :
  assign_at [Env [("x", Nil)] None; Env [] (Some 0)] 1 1 "x" (Number 1%float)
    = Done (Some [Env [("x", Number 1%float)] None; Env [] (Some 0)]) tt.
Proof.
  rewrite assign_at_walks_distance.
  - vm_compute. reflexivity.
  - intros [|[|i]] vs q H; [discriminate|injection H as _ <-; lia|destruct i; discriminate].
  - simpl. lia.
Defined.

(** [==] and [!=] refuse a Number compared with a String (either order);
    on any other pair of values they give the equality of the values and
    its negation. *)
Theorem equality_operators l r :
  (number_string_pair l r ->
     binary_op l TokenType.EqualEqual r = inr "operator is not supported for String and Number" /\
     binary_op l TokenType.BangEqual r = inr "operator is not supported for String and Number") /\
  (~ number_string_pair l r ->
     binary_op l TokenType.EqualEqual r = inl (from_bool (value_eqb l r)) /\
     binary_op l TokenType.BangEqual r = inl (from_bool (negb (value_eqb l r)))).
Proof.
  unfold number_string_pair. split.
  - intros (x & s & [[-> ->]|[-> ->]]); split; reflexivity.
  - intros Hn. destruct l, r; try (split; reflexivity);
      exfalso; apply Hn; eauto.
Qed.

(** [-], [*] and [/] succeed exactly on two Numbers; [+], [>], [>=], [<]
    and [<=] succeed exactly on two Numbers or two Strings; every other
    pair of operands is an error. *)
Theorem arithmetic_operand_kinds l r :
  (forall tt, In tt [TokenType.Minus; TokenType.Star; TokenType.Slash] ->
     (exists v, binary_op l tt r = inl v) <->
     (exists x y, l = Number x /\ r = Number y)) /\
  (forall tt, In tt [TokenType.Plus; TokenType.Greater; TokenType.GreaterEqual;
                     TokenType.Less; TokenType.LessEqual] ->
     (exists v, binary_op l tt r = inl v) <->
     (exists x y, l = Number x /\ r = Number y) \/
     (exists s1 s2, l = StringValue s1 /\ r = StringValue s2)).
Proof.
  split; intros tt Htt; simpl in Htt.
  - destruct Htt as [<-|[<-|[<-|[]]]]; split.
    all: first
      [ intros [v Hv]; destruct l, r; simpl in Hv; try discriminate; now eauto
      | intros (x & y & -> & ->); simpl; now eauto ].
  - destruct Htt as [<-|[<-|[<-|[<-|[<-|[]]]]]]; split.
    all: first
      [ intros [v Hv]; destruct l, r; simpl in Hv; try discriminate; now eauto 6
      | intros [(x & y & -> & ->)|(x & y & -> & ->)]; simpl; now eauto ].
Qed.

(** ** Scopes *)

Lemma kept_refl st : kept st st.
Proof.
  split; [split; auto|]. intros i vs enc H. exists vs. auto.
Qed.

Lemma kept_trans st st1 st2 : kept st st1 -> kept st1 st2 -> kept st st2.
Proof.
  intros [[Hc1 Hl1] K1] [[Hc2 Hl2] K2]. split; [split; [congruence|lia]|].
  intros i vs enc H.
  destruct (K1 _ _ _ H) as (vs1 & H1 & A1 & B1).
  destruct (K2 _ _ _ H1) as (vs2 & H2 & A2 & B2).
  exists vs2. split; [exact H2|split; [auto|]].
  intros Hi y Hy. apply B1; [exact Hi|]. apply B2; [congruence|exact Hy].
Qed.

Lemma kept_same st st' :
  heap_of st' = heap_of st -> cur_env st' = cur_env st -> kept st st'.
Proof.
  intros Hh Hc. split; [split; [exact Hc|rewrite Hh; lia]|].
  intros i vs enc H. exists vs. rewrite Hh. auto.
Qed.

Lemma kept_then_same st st1 st2 :
  kept st st1 -> heap_of st2 = heap_of st1 -> cur_env st2 = cur_env st1 -> kept st st2.
Proof. intros K Hh Hc. apply (kept_trans _ _ _ K). apply kept_same; assumption. Qed.

Lemma values_get_insert_some y x v vs :
  values_get y vs <> None -> values_get y (values_insert x v vs) <> None.
Proof.
  rewrite values_get_insert. destruct (String.eqb x y); [discriminate|auto].
Qed.

Lemma values_get_insert_back y x v vs :
  values_get x vs <> None -> values_get y (values_insert x v vs) <> None -> values_get y vs <> None.
Proof.
  rewrite values_get_insert. destruct (String.eqb_spec x y) as [->|]; auto.
Qed.

Lemma kept_define st x v : kept st (define_current st x v).
Proof.
  split.
  - split; [reflexivity|]. unfold define_current, set_heap; simpl. rewrite heap_set_length. lia.
  - intros i vs enc H. unfold define_current, set_heap; simpl.
    destruct (Nat.eq_dec i (cur_env st)) as [->|Hne].
    + rewrite (nth_error_heap_set_same _ _ _ _ H). unfold current_frame. rewrite H. simpl.
      eexists; split; [reflexivity|split].
      * intros y. apply values_get_insert_some.
      * intros Hc. contradiction.
    + exists vs. rewrite (nth_error_heap_set_other _ _ _ _ Hne). rewrite H. auto.
Qed.

Lemma kept_assign st st1 x v h :
  kept st st1 -> env_assign (heap_of st1) (cur_env st1) x v = Some h -> kept st (set_heap st1 h).
Proof.
  intros K E. apply (kept_trans _ _ _ K).
  destruct (env_assign_aux_shape _ _ _ _ _ _ E) as (r & vs0 & enc0 & w & Er & Ex & ->).
  split; [split; [reflexivity|simpl; rewrite heap_set_length; lia]|].
  intros i vs enc H. simpl.
  destruct (Nat.eq_dec i r) as [->|Hne].
  - rewrite (nth_error_heap_set_same _ _ _ _ H). rewrite Er in H. injection H as <- <-.
    eexists; split; [reflexivity|split].
    + intros y. apply values_get_insert_some.
    + intros _ y. apply values_get_insert_back. rewrite Ex. discriminate.
  - exists vs. rewrite (nth_error_heap_set_other _ _ _ _ Hne). rewrite H. auto.
Qed.

Lemma kept_push st e st1 st2 :
  kept (set_env (set_heap st (heap_of st ++ [e])%list) (length (heap_of st))) st1 ->
  heap_of st2 = heap_of st1 -> cur_env st2 = cur_env st ->
  kept st st2.
Proof.
  intros [[Hc Hl] K] Hh Hc2. simpl in Hc, Hl. rewrite length_app in Hl. simpl in Hl.
  split; [split; [exact Hc2|rewrite Hh; lia]|].
  intros i vs enc H.
  assert (Hi : i < length (heap_of st)) by (apply nth_error_Some; rewrite H; discriminate).
  assert (H' : nth_error (heap_of (set_env (set_heap st (heap_of st ++ [e])%list) (length (heap_of st)))) i
               = Some (Env vs enc)) by (simpl; rewrite nth_error_app1 by exact Hi; exact H).
  destruct (K _ _ _ H') as (vs' & H1 & A & B).
  exists vs'. rewrite Hh. split; [exact H1|split; [exact A|]].
  intros _ y. apply B. simpl. lia.
Qed.

Ltac close_kept :=
  first
  [ apply kept_refl
  | apply kept_define
  | apply kept_same; reflexivity
  | match goal with
    | M : env_assign (heap_of ?a) (cur_env ?a) _ _ = Some ?h |- kept ?a (set_heap ?a ?h) =>
        exact (kept_assign a a _ _ h (kept_refl a) M)
    | H : kept (set_env (set_heap ?a _) _) ?b |- kept ?a _ =>
        eapply (kept_push a _ b); [exact H|reflexivity|reflexivity]
    | H : kept ?a ?b |- kept ?a _ =>
        apply (kept_trans a b); [exact H|]; clear H; close_kept
    end ].

Section Kept.

Variable host : nat -> list literal_value -> literal_value + string.

Lemma success_keeps_scopes : forall fuel,
  (forall e st v st', evaluate host fuel e st = Done v st' -> kept st st') /\
  (forall es st vs st', evaluate_args host fuel es st = Done vs st' -> kept st st') /\
  (forall c args st v st', call host fuel c args st = Done v st' -> kept st st') /\
  (forall ss st u st', interpret host fuel ss st = Done u st' -> kept st st') /\
  (forall s st u st', execute host fuel s st = Done u st' -> kept st st') /\
  (forall cond body flag st u st',
     run_while host fuel cond body flag st = Done u st' -> kept st st').
Proof.
  induction fuel as [|f IH].
  { repeat split; intros; discriminate. }
  destruct IH as (IHe & IHa & IHc & IHi & IHx & IHw).
  split; [|split; [|split; [|split; [|split]]]]; intros.
  all: match goal with H : _ = Done _ _ |- _ =>
         cbn [evaluate evaluate_args call interpret execute run_while] in H end.
  all: inv_done.
  all: repeat match goal with
       | E : evaluate host _ _ _ = Done _ _ |- _ => apply IHe in E
       | E : evaluate_args host _ _ _ = Done _ _ |- _ => apply IHa in E
       | E : call host _ _ _ _ = Done _ _ |- _ => apply IHc in E
       | E : interpret host _ _ _ = Done _ _ |- _ => apply IHi in E
       | E : execute host _ _ _ = Done _ _ |- _ => apply IHx in E
       | E : run_while host _ _ _ _ _ = Done _ _ |- _ => apply IHw in E
       end.
  all: repeat match goal with M : heap_alloc _ _ = (_, _) |- _ =>
         unfold heap_alloc in M; injection M as <- <- end.
  all: close_kept.
Qed.

End Kept.

Lemma env_get_none_agree (h h' : heap) (y : string) :
  heap_wf h ->
  (forall i vs enc, nth_error h i = Some (Env vs enc) ->
     exists vs', nth_error h' i = Some (Env vs' enc) /\
                 (values_get y vs' = None <-> values_get y vs = None)) ->
  forall n m p, p < n -> p < m -> p < length h ->
  (env_get_aux n h' p y = None <-> env_get_aux m h p y = None).
Proof.
  intros Hwf Hag. induction n as [|n IH]; intros m p Hn Hm Hp; [lia|].
  destruct m as [|m]; [lia|]. simpl.
  destruct (nth_error h p) as [[vs enc]|] eqn:E;
    [|apply nth_error_None in E; lia].
  destruct (Hag _ _ _ E) as (vs' & E' & Hy). rewrite E'.
  destruct (values_get y vs') eqn:Y'; destruct (values_get y vs) eqn:Y.
  - split; discriminate.
  - exfalso. destruct Hy as [_ Hy]. specialize (Hy eq_refl). discriminate.
  - exfalso. destruct Hy as [Hy _]. specialize (Hy eq_refl). discriminate.
  - destruct enc as [q|]; [|tauto].
    pose proof (Hwf _ _ _ E). apply IH; lia.
Qed.

(** A successful run of statements keeps every environment cell, with its
    enclosing pointer; a name bound in a cell stays bound, and only the
    current cell gains new names. *)
Theorem interpret_keeps_scopes host fuel stmts st st' :
  interpret host fuel stmts st = Done tt st' -> scopes_kept st st'.
Proof. intros H. exact (proj2 (proj1 (proj2 (proj2 (proj2 (success_keeps_scopes host fuel)))) _ _ _ _ H)). Qed.

(** A block runs in a fresh cell: after it succeeds, the current cell is
    the same and exactly the same names are visible from it as before, so
    a declaration inside the block does not leak out. *)
Theorem block_declarations_do_not_leak host fuel ss st st' :
  heap_wf (heap_of st) -> cur_env st < length (heap_of st) ->
  execute host fuel (Block ss) st = Done tt st' ->
  cur_env st' = cur_env st /\
  forall y, env_get (heap_of st') (cur_env st') y = None <->
            env_get (heap_of st) (cur_env st) y = None.
Proof.
  intros Hwf Hc H. destruct fuel as [|f]; [discriminate|].
  cbn [execute] in H. unfold heap_alloc in H.
  destruct (interpret host f ss _) as [u st1|m st1| |] eqn:E; try discriminate.
  injection H as <-.
  destruct (proj1 (proj2 (proj2 (proj2 (success_keeps_scopes host f)))) _ _ _ _ E)
    as [[Hc1 Hl1] K].
  simpl in Hc1, Hl1. rewrite length_app in Hl1. simpl in Hl1.
  split; [reflexivity|]. intros y. unfold env_get. simpl.
  apply (env_get_none_agree (heap_of st) (heap_of st1) y Hwf); [|lia|lia|exact Hc].
  intros i vs enc Hi.
  assert (Hlt : i < length (heap_of st)) by (apply nth_error_Some; rewrite Hi; discriminate).
  assert (Hi' : nth_error (heap_of st ++ [Env [] (Some (cur_env st))])%list i = Some (Env vs enc))
    by (rewrite nth_error_app1 by exact Hlt; exact Hi).
  destruct (K _ _ _ Hi') as (vs' & E' & A & B).
  exists vs'. split; [exact E'|].
  simpl in B. specialize (A y). specialize (B ltac:(lia) y).
  destruct (values_get y vs'), (values_get y vs); split; intros; try reflexivity; try discriminate.
  all: exfalso; solve [apply B; first [discriminate|reflexivity]
                      | apply A; first [discriminate|reflexivity]].
Qed.

Lemma block_declarations_do_not_leak_witness :
  exists st',
    execute (clock_host 0%float) 5 (Block [Var (t_id "y") (Literal Nil)]) interpreter_new
      = Done tt st' /\
    env_get (heap_of st') (cur_env st') "y" = None.
Proof.
  eexists. split.
  - vm_compute. reflexivity.
  - apply (block_declarations_do_not_leak (clock_host 0%float) 5
             [Var (t_id "y") (Literal Nil)] interpreter_new).
    + intros [|i] vs q H; [discriminate|destruct i; discriminate].
    + simpl. lia.
    + vm_compute. reflexivity.
    + vm_compute. reflexivity.
Defined.

Lemma interpret_keeps_scopes_witness :
  exists st',
    interpret (clock_host 0%float) 5 [Var (t_id "y") (Literal Nil)] interpreter_new
      = Done tt st' /\
    scopes_kept interpreter_new st'.
Proof.
  eexists. split.
  - vm_compute. reflexivity.
  - apply (interpret_keeps_scopes (clock_host 0%float) 5 [Var (t_id "y") (Literal Nil)]).
    vm_compute. reflexivity.
Defined.

(** ** Parser *)

Lemma eqb_false_of_not_in ty t ops : In t ops -> ~ In ty ops -> TokenType.eqb ty t = false.
Proof.
  intros Ht Hn. unfold TokenType.eqb. destruct (TokenType.eq_dec ty t) as [->|]; [contradiction|reflexivity].
Qed.

Lemma match_tokens_not_in p ops :
  ~ In (token_type (peek p)) ops -> match_tokens p ops = (false, p).
Proof.
  intros Hn. induction ops as [|t ops IH]; simpl; [reflexivity|].
  unfold check. destruct (is_at_end p); [apply IH; simpl in Hn; tauto|].
  rewrite (eqb_false_of_not_in _ t (t :: ops)); [|left; reflexivity|exact Hn].
  apply IH. simpl in Hn. tauto.
Qed.

Lemma match_tokens_in p ops :
  In (token_type (peek p)) ops -> token_type (peek p) <> TokenType.Eof ->
  match_tokens p ops = (true, advance p).
Proof.
  intros Hin Hne. induction ops as [|t ops IH]; simpl in *; [contradiction|].
  unfold check, is_at_end, TokenType.eqb.
  destruct (TokenType.eq_dec _ TokenType.Eof); [contradiction|].
  destruct (TokenType.eq_dec _ t) as [E|Hne'].
  - reflexivity.
  - destruct Hin as [E|Hin]; [symmetry in E; contradiction|]. apply IH. exact Hin.
Qed.

Lemma binary_loop_stop fuel ops mk sub e p :
  ~ In (token_type (peek p)) ops ->
  binary_loop (S fuel) ops mk sub e p = Done e p.
Proof. intros Hn. simpl. rewrite (match_tokens_not_in _ _ Hn). reflexivity. Qed.

Lemma advance_not_end p :
  token_type (peek p) <> TokenType.Eof -> advance p = mkParser (tokens p) (S (current p)).
Proof.
  intros H. unfold advance, is_at_end, TokenType.eqb.
  destruct (TokenType.eq_dec _ _); [contradiction|reflexivity].
Qed.

Lemma previous_advance p :
  token_type (peek p) <> TokenType.Eof -> previous (advance p) = peek p.
Proof.
  intros H. rewrite advance_not_end by exact H. destruct p. unfold previous, peek; simpl.
  rewrite Nat.sub_0_r. reflexivity.
Qed.

Lemma peek_mk toks k : peek (mkParser toks k) = hd eof_token (skipn k toks).
Proof.
  unfold peek; simpl. revert k. induction toks as [|t toks IH]; intros [|k]; simpl; auto.
Qed.

Lemma skipn_cons_succ {A} k (l l' : list A) a : skipn k l = a :: l' -> skipn (S k) l = l'.
Proof.
  revert l. induction k as [|k IH]; intros [|b l] H; simpl in *; try discriminate.
  - injection H as _ ->. reflexivity.
  - apply IH. exact H.
Qed.

Lemma advance_mk toks k :
  token_type (hd eof_token (skipn k toks)) <> TokenType.Eof ->
  advance (mkParser toks k) = mkParser toks (S k).
Proof. intros H. rewrite advance_not_end; [reflexivity|]. rewrite peek_mk. exact H. Qed.

Lemma level_operand (L : nat -> parser -> outcome parser expr) sub ops mk below c :
  (forall f q, L (S f) q = bind (sub f q) (fun e p1 => binary_loop f ops mk (sub f) e p1)) ->
  (forall f, c <= f -> parses_operand (sub f) below) -> 1 <= c ->
  forall f, S c <= f -> parses_operand (L f) (below ++ ops).
Proof.
  intros Heq Hsub Hc [|f] Hf q Hid Hn; [lia|]. rewrite Heq.
  rewrite (Hsub f); [| lia | exact Hid | intros Hin; apply Hn; apply in_or_app; auto].
  cbn [bind]. destruct f as [|f]; [lia|]. apply binary_loop_stop.
  intros Hin; apply Hn; apply in_or_app; auto.
Qed.

Lemma binary_loop_chain ops below mk sub toks pairs rest :
  parses_operand sub below ->
  (forall t, In t ops -> ~ In t below /\ t <> TokenType.Eof) ->
  Forall (fun opx => In (token_type (fst opx)) ops /\
                     token_type (snd opx) = TokenType.Identifier) pairs ->
  ~ In (token_type (hd eof_token rest)) (below ++ ops) ->
  forall fuel k e, length pairs < fuel ->
  skipn k toks = (chain_tokens pairs ++ rest)%list ->
  binary_loop fuel ops mk sub e (mkParser toks k) =
  Done (chain_expr mk e pairs) (mkParser toks (k + 2 * length pairs)).
Proof.
  intros Hsub Hops Hpairs Hrest.
  induction Hpairs as [|[op x] pairs [Hop Hx] Hpairs IH]; intros fuel k e Hf Hk.
  - destruct fuel as [|fuel]; [lia|]. rewrite Nat.add_0_r. apply binary_loop_stop.
    rewrite peek_mk, Hk. simpl. intros Hin; apply Hrest; apply in_or_app; auto.
  - destruct fuel as [|fuel]; [simpl in Hf; lia|]. simpl in Hk, Hop, Hx.
    destruct (Hops _ Hop) as [Hopb Hope].
    cbn [binary_loop].
    rewrite match_tokens_in by (rewrite peek_mk, Hk; simpl; assumption).
    rewrite advance_mk by (rewrite Hk; exact Hope).
    cbv beta iota.
    assert (Hk1 := skipn_cons_succ _ _ _ _ Hk).
    assert (Hk2 := skipn_cons_succ _ _ _ _ Hk1).
    assert (Hprev : previous (mkParser toks (S k)) = op).
    { unfold previous; simpl. rewrite Nat.sub_0_r.
      pose proof (peek_mk toks k) as P. unfold peek in P; simpl in P. rewrite P, Hk. reflexivity. }
    rewrite Hprev.
    assert (Hpx : peek (mkParser toks (S k)) = x) by (rewrite peek_mk, Hk1; reflexivity).
    rewrite Hsub.
    2: { rewrite Hpx. exact Hx. }
    2: { rewrite advance_mk by (rewrite Hk1; simpl; rewrite Hx; discriminate).
         rewrite peek_mk, Hk2. destruct pairs as [|[op' x'] pairs']; simpl.
         - intros Hin; apply Hrest; apply in_or_app; auto.
         - inversion Hpairs as [|? ? [Hop' _] _]; subst. simpl in Hop'.
           exact (proj1 (Hops _ Hop')). }
    rewrite Hpx. cbn [bind].
    rewrite advance_mk by (rewrite Hk1; simpl; rewrite Hx; discriminate).
    rewrite (IH fuel (S (S k))); [|simpl in Hf; lia|exact Hk2].
    f_equal. f_equal. simpl. lia.
Qed.

Lemma level_chain (L : nat -> parser -> outcome parser expr) sub ops mk below c toks x0 pairs rest :
  (forall f q, L (S f) q = bind (sub f q) (fun e p1 => binary_loop f ops mk (sub f) e p1)) ->
  (forall f, c <= f -> parses_operand (sub f) below) ->
  (forall t, In t ops -> ~ In t below /\ t <> TokenType.Eof) ->
  token_type x0 = TokenType.Identifier ->
  Forall (fun opx => In (token_type (fst opx)) ops /\
                     token_type (snd opx) = TokenType.Identifier) pairs ->
  ~ In (token_type (hd eof_token rest)) (below ++ ops) ->
  forall f k, c <= f -> length pairs < f ->
  skipn k toks = (x0 :: chain_tokens pairs ++ rest)%list ->
  L (S f) (mkParser toks k) =
  Done (chain_expr mk (Variable_ x0) pairs) (mkParser toks (S k + 2 * length pairs)).
Proof.
  intros Heq Hsub Hops Hx0 Hpairs Hrest f k Hc Hf Hk. rewrite Heq.
  assert (Hk1 := skipn_cons_succ _ _ _ _ Hk).
  assert (Hp : peek (mkParser toks k) = x0) by (rewrite peek_mk, Hk; reflexivity).
  assert (Ha : advance (mkParser toks k) = mkParser toks (S k))
    by (apply advance_mk; rewrite Hk; simpl; rewrite Hx0; discriminate).
  rewrite (Hsub f Hc).
  2: { rewrite Hp. exact Hx0. }
  2: { rewrite Ha, peek_mk, Hk1. destruct pairs as [|[op' x'] pairs']; simpl.
       - intros Hin; apply Hrest; apply in_or_app; auto.
       - inversion Hpairs as [|? ? [Hop' _] _]; subst. simpl in Hop'.
         exact (proj1 (Hops _ Hop')). }
  rewrite Hp, Ha. cbn [bind].
  apply (binary_loop_chain ops below mk (sub f) toks pairs rest); auto.
Qed.

Lemma level_lift (L : nat -> parser -> outcome parser expr) sub ops mk f q e q' :
  (forall f q, L (S f) q = bind (sub f q) (fun e p1 => binary_loop f ops mk (sub f) e p1)) ->
  sub (S f) q = Done e q' -> ~ In (token_type (peek q')) ops ->
  L (S (S f)) q = Done e q'.
Proof.
  intros Heq Hs Hn. rewrite Heq, Hs. cbn [bind]. apply binary_loop_stop. exact Hn.
Qed.

Lemma unary_operand f : 3 <= f -> parses_operand (unary f) [TokenType.LeftParen].
Proof.
  intros Hf q Hid Hn. do 3 (destruct f as [|f]; [lia|]).
  assert (Hne : token_type (peek q) <> TokenType.Eof) by (rewrite Hid; discriminate).
  cbn [unary].
  rewrite match_tokens_not_in by (rewrite Hid; simpl; intuition discriminate).
  cbn [call_]. cbn [primary]. rewrite Hid.
  rewrite previous_advance by exact Hne. cbn [bind call_loop].
  rewrite (match_tokens_not_in _ _ Hn). reflexivity.
Qed.

Lemma factor_eq f q : factor (S f) q =
  bind (unary f q) (fun e p1 => binary_loop f [TokenType.Slash; TokenType.Star] Binary (unary f) e p1).
Proof. reflexivity. Qed.
Lemma term_eq f q : term (S f) q =
  bind (factor f q) (fun e p1 => binary_loop f [TokenType.Minus; TokenType.Plus] Binary (factor f) e p1).
Proof. reflexivity. Qed.
Lemma comparison_eq f q : comparison (S f) q =
  bind (term f q) (fun e p1 => binary_loop f [TokenType.Greater; TokenType.GreaterEqual;
    TokenType.Less; TokenType.LessEqual] Binary (term f) e p1).
Proof. reflexivity. Qed.
Lemma equality_eq f q : equality (S f) q =
  bind (comparison f q) (fun e p1 => binary_loop f [TokenType.BangEqual; TokenType.EqualEqual]
    Binary (comparison f) e p1).
Proof. reflexivity. Qed.
Lemma and_eq f q : and_ (S f) q =
  bind (equality f q) (fun e p1 => binary_loop f [TokenType.And] Logical (equality f) e p1).
Proof. reflexivity. Qed.
Lemma or_eq f q : or_ (S f) q =
  bind (and_ f q) (fun e p1 => binary_loop f [TokenType.Or] Logical (and_ f) e p1).
Proof. reflexivity. Qed.

Lemma factor_operand : forall f, 4 <= f -> parses_operand (factor f) below_factor.
Proof. exact (level_operand factor unary _ Binary _ 3 factor_eq unary_operand ltac:(lia)). Qed.
Lemma term_operand : forall f, 5 <= f -> parses_operand (term f) below_term.
Proof. exact (level_operand term factor _ Binary _ 4 term_eq factor_operand ltac:(lia)). Qed.
Lemma comparison_operand : forall f, 6 <= f -> parses_operand (comparison f) below_comparison.
Proof. exact (level_operand comparison term _ Binary _ 5 comparison_eq term_operand ltac:(lia)). Qed.
Lemma equality_operand : forall f, 7 <= f -> parses_operand (equality f) below_equality.
Proof. exact (level_operand equality comparison _ Binary _ 6 equality_eq comparison_operand ltac:(lia)). Qed.
Lemma and_operand : forall f, 8 <= f -> parses_operand (and_ f) below_and.
Proof. exact (level_operand and_ equality _ Logical _ 7 and_eq equality_operand ltac:(lia)). Qed.

Lemma skipn_chain pairs rest :
  skipn (2 * length pairs) (chain_tokens pairs ++ rest)%list = rest.
Proof.
  induction pairs as [|[op x] pairs IH]; [reflexivity|].
  simpl length. replace (2 * S (length pairs)) with (S (S (2 * length pairs))) by lia.
  exact IH.
Qed.

Lemma expression_of_or b p e q :
  or_ b p = Done e q -> token_type (peek q) <> TokenType.Equal ->
  expression (S (S b)) p = Done e q.
Proof.
  intros H Hn. cbn [expression assignment]. rewrite H. cbn [bind].
  rewrite match_tokens_not_in by (simpl; intuition). reflexivity.
Qed.

Ltac not_in_from H :=
  let Hin := fresh in
  intros Hin; apply H;
  unfold below_and, below_equality, below_comparison, below_term, below_factor in *;
  simpl in *; tauto.

Ltac ops_ok :=
  let t := fresh "t" in let Ht := fresh "Ht" in
  intros t Ht; simpl in Ht;
  repeat (destruct Ht as [<-|Ht];
          [split; [unfold below_and, below_equality, below_comparison, below_term, below_factor;
                   simpl; intuition discriminate|discriminate]|]);
  contradiction.



(** ** Scanner *)

Module ScanProofs.
Import Scanner ScanInv.

(* string facts *)
Lemma nl_count_prefix_succ s i c :
  String.get i s = Some c ->
  nl_count (substring 0 (S i) s) =
  nl_count (substring 0 i s) + (if Ascii.eqb c newline then 1 else 0).
Proof.
  revert i; induction s as [|c' s IH]; intros i H; [destruct i; discriminate|].
  destruct i as [|i]; simpl in *.
  - injection H as ->. destruct s; simpl; destruct (Ascii.eqb c newline); reflexivity.
  - rewrite (IH i H). lia.
Qed.

Lemma get_lt s i : i < String.length s -> exists c, String.get i s = Some c.
Proof.
  revert i; induction s as [|c s IH]; intros i H; simpl in *; [lia|].
  destruct i; [eauto|apply IH; lia].
Qed.

Lemma substring_0_length s : substring 0 (String.length s) s = s.
Proof. induction s; simpl; congruence. Qed.

(* scanner facts *)
Lemma not_at_end_lt sc : is_at_end sc = false -> current sc < String.length (source sc).
Proof. unfold is_at_end. intros H. apply Nat.leb_gt in H. exact H. Qed.

Lemma peek_not_end sc : is_at_end sc = false -> peek sc = char_at sc (current sc).
Proof. unfold peek. intros ->. reflexivity. Qed.

Lemma advance_inv sc :
  scan_inv sc -> is_at_end sc = false ->
  Ascii.eqb (char_at sc (current sc)) newline = false ->
  scan_inv (snd (advance sc)).
Proof.
  intros [Hle Hl] He Hc. apply not_at_end_lt in He.
  destruct (get_lt _ _ He) as [c Hg].
  unfold char_at in Hc. rewrite Hg in Hc.
  unfold scan_inv, advance, with_current, with_line in *. destruct sc; simpl in *. split; [lia|].
  rewrite (nl_count_prefix_succ _ _ _ Hg), Hc. lia.
Qed.

Lemma advance_inv_nl sc :
  scan_inv sc -> is_at_end sc = false ->
  Ascii.eqb (char_at sc (current sc)) newline = true ->
  scan_inv (with_line (snd (advance sc)) (S (line sc))).
Proof.
  intros [Hle Hl] He Hc. apply not_at_end_lt in He.
  destruct (get_lt _ _ He) as [c Hg].
  unfold char_at in Hc. rewrite Hg in Hc.
  unfold scan_inv, advance, with_current, with_line in *. destruct sc; simpl in *. split; [lia|].
  rewrite (nl_count_prefix_succ _ _ _ Hg), Hc. lia.
Qed.

Lemma advance_while_ok f pred sc u sc' :
  pred nul = false -> pred newline = false ->
  advance_while f pred sc = Done u sc' ->
  same_buf sc sc' /\ (scan_inv sc -> scan_inv sc').
Proof.
  intros Hn Hnl. revert sc. induction f as [|f IH]; intros sc H; simpl in H; [discriminate|].
  destruct (pred (peek sc)) eqn:Ep.
  - destruct (is_at_end sc) eqn:He.
    + unfold peek in Ep. rewrite He, Hn in Ep. discriminate.
    + destruct (IH _ H) as [[H1 [H2 H3]] H4]. split.
      * unfold same_buf, advance, with_current, with_line in *; destruct sc; simpl in *; repeat split; assumption.
      * intros Hi. apply H4. apply advance_inv; [assumption|assumption|].
        rewrite peek_not_end in Ep by assumption.
        destruct (Ascii.eqb_spec (char_at sc (current sc)) newline) as [E|]; [|reflexivity].
        rewrite E, Hnl in Ep. discriminate.
  - injection H as _ <-. split; [repeat split|auto].
Qed.

Lemma comment_loop_ok f sc u sc' :
  comment_loop f sc = Done u sc' ->
  same_buf sc sc' /\ (scan_inv sc -> scan_inv sc').
Proof.
  revert sc. induction f as [|f IH]; intros sc H; simpl in H; [discriminate|].
  destruct (negb (Ascii.eqb (peek sc) newline) && negb (is_at_end sc)) eqn:Ec.
  - apply andb_true_iff in Ec as [E1 E2]. apply negb_true_iff in E1, E2.
    destruct (IH _ H) as [[H1 [H2 H3]] H4]. split.
    + unfold same_buf, advance, with_current, with_line in *; destruct sc; simpl in *; repeat split; assumption.
    + intros Hi. apply H4. apply advance_inv; try assumption.
      rewrite peek_not_end in E1 by assumption. exact E1.
  - injection H as _ <-. split; [repeat split|auto].
Qed.

Lemma string_loop_ok f sc u sc' :
  string_loop f sc = Done u sc' ->
  same_buf sc sc' /\ (scan_inv sc -> scan_inv sc') /\
  (is_at_end sc' = true \/ peek sc' = quote).
Proof.
  revert sc. induction f as [|f IH]; intros sc H; simpl in H; [discriminate|].
  destruct (negb (Ascii.eqb (peek sc) quote) && negb (is_at_end sc)) eqn:Ec.
  - apply andb_true_iff in Ec as [E1 E2]. apply negb_true_iff in E1, E2.
    rewrite peek_not_end in * by assumption.
    destruct (Ascii.eqb (char_at sc (current sc)) newline) eqn:En.
    + destruct (IH _ H) as [[H1 [H2 H3]] [H4 H5]].
      split; [unfold same_buf, advance, with_current, with_line in *; destruct sc; simpl in *; repeat split; assumption|split; [|exact H5]].
      intros Hi. apply H4.
      pose proof (advance_inv_nl sc Hi E2 En) as Ha. unfold scan_inv, advance, with_current, with_line in *; destruct sc; exact Ha.
    + destruct (IH _ H) as [[H1 [H2 H3]] [H4 H5]].
      split; [unfold same_buf, advance, with_current, with_line in *; destruct sc; simpl in *; repeat split; assumption|split; [|exact H5]].
      intros Hi. apply H4. apply advance_inv; assumption.
  - injection H as _ <-. split; [repeat split|split; [auto|]].
    apply andb_false_iff in Ec as [E|E]; apply negb_false_iff in E.
    + right. apply Ascii.eqb_eq. exact E.
    + left. exact E.
Qed.

Lemma step_ok_via {X} sc sc1 (r : outcome scanner X) :
  source sc1 = source sc -> tokens sc1 = tokens sc ->
  (scan_inv sc -> scan_inv sc1) -> step_ok sc1 r -> step_ok sc r.
Proof.
  intros Hs Ht Hi H. destruct r as [a sc'|m sc'| |]; simpl in *; try exact I;
  destruct H as (H1 & (new & H2 & H3) & H4);
  (split; [congruence|split; [exists new; split; [congruence|exact H3]|auto]]).
Qed.

Lemma step_ok_same {X} sc (a : X) : step_ok sc (Done a sc).
Proof. simpl. split; [reflexivity|split; [exists []; rewrite app_nil_r; auto|auto]]. Qed.

Lemma step_ok_fail {X} sc m : step_ok (X:=X) sc (Fail m sc).
Proof. simpl. split; [reflexivity|split; [exists []; rewrite app_nil_r; auto|auto]]. Qed.

Lemma step_ok_same_buf {X} sc sc1 (a : X) :
  same_buf sc sc1 -> (scan_inv sc -> scan_inv sc1) -> step_ok sc (Done a sc1).
Proof.
  intros (Hs & Ht & _) Hi. apply (step_ok_via sc sc1); auto. apply step_ok_same.
Qed.

Lemma add_token_lit_ok T lit sc :
  scanned_token_ok (mkToken T (substring (start sc) (current sc - start sc) (source sc)) lit (line sc)) ->
  step_ok sc (Done tt (add_token_lit T lit sc)).
Proof.
  intros H. simpl. split; [reflexivity|split].
  - eexists; split; [reflexivity|]. constructor; [exact H|constructor].
  - unfold scan_inv; destruct sc; simpl; auto.
Qed.

Lemma add_token_ok T sc :
  T <> TokenType.Number -> T <> TokenType.StringLit -> T <> TokenType.Identifier ->
  T <> TokenType.Eof ->
  step_ok sc (Done tt (add_token T sc)).
Proof.
  intros H1 H2 H3 H4. apply add_token_lit_ok.
  unfold scanned_token_ok; simpl.
  split; [intros [E|E]; contradiction|]. tauto.
Qed.

Lemma char_match_ok sc ch :
  Ascii.eqb ch newline = false ->
  same_buf sc (snd (char_match sc ch)) /\ (scan_inv sc -> scan_inv (snd (char_match sc ch))).
Proof.
  intros Hn. unfold char_match.
  destruct (is_at_end sc) eqn:He; [split; [repeat split|auto]|].
  destruct (negb (Ascii.eqb (char_at sc (current sc)) ch)) eqn:Ec; [split; [repeat split|auto]|].
  apply negb_false_iff, Ascii.eqb_eq in Ec.
  split; [unfold same_buf, with_current; destruct sc; repeat split|].
  intros Hi. apply (advance_inv sc Hi He). rewrite Ec. exact Hn.
Qed.

Lemma string_loop_no_fail f sc m sc' : string_loop f sc <> Fail m sc'.
Proof.
  revert sc; induction f; intros sc; simpl; [discriminate|].
  destruct (_ && _); [apply IHf|discriminate].
Qed.

Lemma advance_while_no_fail f pred sc m sc' : advance_while f pred sc <> Fail m sc'.
Proof.
  revert sc; induction f; intros sc; simpl; [discriminate|].
  destruct (pred (peek sc)); [apply IHf|discriminate].
Qed.

Lemma comment_loop_no_fail f sc m sc' : comment_loop f sc <> Fail m sc'.
Proof.
  revert sc; induction f; intros sc; simpl; [discriminate|].
  destruct (_ && _); [apply IHf|discriminate].
Qed.

Lemma string_ok sc : step_ok sc (string_ sc).
Proof.
  unfold string_.
  destruct (string_loop (fuel_of sc) sc) as [u sc1|m sc1| |] eqn:E; simpl; try exact I;
    [|exfalso; exact (string_loop_no_fail _ _ _ _ E)].
  destruct (string_loop_ok _ _ _ _ E) as [[Hs [Ht Hst]] [Hi Hq]].
  destruct (is_at_end sc1) eqn:He.
  - simpl. split; [exact Hs|split; [exists []; rewrite Ht, app_nil_r; auto|auto]].
  - destruct Hq as [Hq|Hq]; [congruence|].
    rewrite peek_not_end in Hq by assumption.
    apply (step_ok_via sc (snd (advance sc1))).
    + unfold advance, with_current; destruct sc1; simpl in *; congruence.
    + unfold advance, with_current; destruct sc1; simpl in *; congruence.
    + intros Hinv. apply (advance_inv sc1 (Hi Hinv) He). rewrite Hq. reflexivity.
    + apply add_token_lit_ok. unfold scanned_token_ok, from_token; simpl.
      split; [intros _; discriminate|].
      split; [intros _ H; exfalso; apply H; reflexivity|].
      split; discriminate.
Qed.

Lemma is_digit_nul : is_digit nul = false.
Proof. reflexivity. Qed.
Lemma is_digit_newline : is_digit newline = false.
Proof. reflexivity. Qed.
Lemma is_alphanumeric_nul : is_alphanumeric nul = false.
Proof. reflexivity. Qed.
Lemma is_alphanumeric_newline : is_alphanumeric newline = false.
Proof. reflexivity. Qed.

Lemma number_ok sc : step_ok sc (number sc).
Proof.
  unfold number.
  destruct (advance_while (fuel_of sc) is_digit sc) as [u sc1|m sc1| |] eqn:E1; cbn [bind]; try exact I;
    [|exfalso; exact (advance_while_no_fail _ _ _ _ _ E1)].
  destruct (advance_while_ok _ _ _ _ _ is_digit_nul is_digit_newline E1) as [[Hs1 [Ht1 _]] Hi1].
  assert (Hmid : forall r, r = (if Ascii.eqb (peek sc1) "."%char && is_digit (peek_next sc1) then
       advance_while (fuel_of sc1) is_digit (snd (advance sc1)) else Done tt sc1) ->
       forall u2 sc2, r = Done u2 sc2 -> same_buf sc1 sc2 /\ (scan_inv sc1 -> scan_inv sc2)).
  { intros r Hr u2 sc2 ->.
    destruct (Ascii.eqb (peek sc1) "."%char && is_digit (peek_next sc1)) eqn:Ed.
    - apply andb_true_iff in Ed as [Ed _].
      destruct (is_at_end sc1) eqn:He.
      + unfold peek in Ed. rewrite He in Ed. discriminate.
      + rewrite peek_not_end in Ed by assumption. apply Ascii.eqb_eq in Ed.
        symmetry in Hr.
        destruct (advance_while_ok _ _ _ _ _ is_digit_nul is_digit_newline Hr) as [[H1 [H2 H3]] H4].
        split.
        * unfold same_buf, advance, with_current in *; destruct sc1; simpl in *; repeat split; assumption.
        * intros Hi. apply H4. apply (advance_inv sc1 Hi He). rewrite Ed. reflexivity.
    - injection Hr as _ <-. split; [repeat split|auto]. }
  destruct (if Ascii.eqb (peek sc1) "."%char && is_digit (peek_next sc1) then
       advance_while (fuel_of sc1) is_digit (snd (advance sc1)) else Done tt sc1)
    as [u2 sc2|m sc2| |] eqn:E2; cbn [bind]; try exact I.
  - destruct (Hmid _ eq_refl _ _ eq_refl) as [[Hs2 [Ht2 _]] Hi2].
    apply (step_ok_via sc sc2); [congruence|congruence|auto|].
    cbv zeta. match goal with |- context [parse_f64 ?t] => destruct (parse_f64 t) end.
    + apply add_token_lit_ok. unfold scanned_token_ok, from_token; simpl.
      split; [intros _; discriminate|].
      split; [intros H; exfalso; apply H; reflexivity|].
      split; discriminate.
    + apply step_ok_fail.
  - exfalso. destruct (Ascii.eqb (peek sc1) "."%char && is_digit (peek_next sc1));
      [exact (advance_while_no_fail _ _ _ _ _ E2)|discriminate].
Qed.

Lemma keyword_get_in s kws t : keyword_get s kws = Some t -> In t (map snd kws).
Proof.
  induction kws as [|[k t'] kws IH]; simpl; [discriminate|].
  destruct (String.eqb k s); [injection 1 as ->; auto|auto].
Qed.

Lemma identifier_ok sc : step_ok sc (identifier sc).
Proof.
  unfold identifier.
  destruct (advance_while (fuel_of sc) is_alphanumeric sc) as [u sc1|m sc1| |] eqn:E1;
    cbn [bind]; try exact I;
    [|exfalso; exact (advance_while_no_fail _ _ _ _ _ E1)].
  destruct (advance_while_ok _ _ _ _ _ is_alphanumeric_nul is_alphanumeric_newline E1)
    as [[Hs1 [Ht1 _]] Hi1].
  apply (step_ok_via sc sc1); [congruence|congruence|auto|].
  cbv zeta. match goal with |- context [keyword_get ?x keywords] => destruct (keyword_get x keywords) as [t|] eqn:Ek end.
  - apply keyword_get_in in Ek. simpl in Ek.
    apply add_token_ok;
      intros ->; repeat (destruct Ek as [Ek|Ek]; [discriminate|]); exact Ek.
  - apply add_token_lit_ok. unfold scanned_token_ok, from_token; simpl.
    split; [intros [E|E]; discriminate|].
    split; [reflexivity|].
    split; [intros _; exact Ek|discriminate].
Qed.

Lemma comment_ok f sc : step_ok sc (comment_loop f sc).
Proof.
  destruct (comment_loop f sc) as [u sc1|m sc1| |] eqn:E; try exact I;
    [|exfalso; exact (comment_loop_no_fail _ _ _ _ E)].
  destruct (comment_loop_ok _ _ _ _ E) as [Hb Hi]. apply step_ok_same_buf; assumption.
Qed.

Lemma advance_newline_ok {X} sc (u : X) :
  is_at_end sc = false -> Ascii.eqb (char_at sc (current sc)) newline = true ->
  step_ok sc (Done u (with_line (with_current sc (S (current sc)))
                        (S (line (with_current sc (S (current sc))))))).
Proof.
  intros He Hn. apply step_ok_same_buf.
  - unfold same_buf, with_line, with_current; destruct sc; repeat split.
  - intros Hi. exact (advance_inv_nl sc Hi He Hn).
Qed.

Section ScanToken.

#[local] Opaque add_token add_token_lit string_ number identifier comment_loop char_match
  with_line fuel_of step_ok.

Lemma scan_token_ok sc : is_at_end sc = false -> step_ok sc (scan_token sc).
Proof.
  intros He. unfold scan_token.
  change (advance sc) with (char_at sc (current sc), with_current sc (S (current sc))).
  cbv beta iota.
  assert (Hi1 : Ascii.eqb (char_at sc (current sc)) newline = false ->
                scan_inv sc -> scan_inv (with_current sc (S (current sc))))
    by (intros Hn Hi; exact (advance_inv sc Hi He Hn)).
  assert (Hi2 : Ascii.eqb (char_at sc (current sc)) newline = true ->
                step_ok sc (Done tt (with_line (with_current sc (S (current sc)))
                                        (S (line (with_current sc (S (current sc))))))))
    by (intros Hn; exact (advance_newline_ok sc tt He Hn)).
  assert (Hs : source (with_current sc (S (current sc))) = source sc) by reflexivity.
  assert (Ht : tokens (with_current sc (S (current sc))) = tokens sc) by reflexivity.
  generalize dependent (with_current sc (S (current sc))). intros sc1 Hi1 Hi2 Hs Ht.
  generalize dependent (char_at sc (current sc)). intros c Hi1 Hi2.
  destruct c as [[] [] [] [] [] [] [] []]; simpl.
  all: first
    [ exact (Hi2 eq_refl)
    | apply (step_ok_via sc sc1 _ Hs Ht (Hi1 eq_refl));
      repeat match goal with
      | |- context [char_match ?s ?ch] =>
          let Hb := fresh "Hb" in let Hib := fresh "Hib" in let s2 := fresh "s" in
          destruct (char_match_ok s ch eq_refl) as [Hb Hib];
          destruct (char_match s ch) as [[] s2]; cbv beta iota; destruct Hb as (? & ? & ?);
          (apply (step_ok_via s s2); [assumption|assumption|exact Hib|])
      end;
      first
        [ exact I
        | apply add_token_ok; discriminate
        | apply step_ok_same
        | apply step_ok_fail
        | apply string_ok
        | apply number_ok
        | apply identifier_ok
        | apply comment_ok ] ].
Qed.

End ScanToken.

Lemma scan_loop_ok f errs sc errs' sc' :
  scan_loop f errs sc = Done errs' sc' ->
  source sc' = source sc /\
  (exists new, tokens sc' = (tokens sc ++ new)%list /\ Forall scanned_token_ok new) /\
  (scan_inv sc -> scan_inv sc') /\ is_at_end sc' = true.
Proof.
  revert errs sc. induction f as [|f IH]; intros errs sc H; simpl in H; [discriminate|].
  destruct (is_at_end sc) eqn:He.
  - injection H as _ <-. split; [reflexivity|split; [exists []; rewrite app_nil_r; auto|auto]].
  - assert (He' : is_at_end (with_start sc (current sc)) = false) by exact He.
    pose proof (scan_token_ok _ He') as Hst.
    destruct (scan_token (with_start sc (current sc))) as [u sc1|m sc1| |] eqn:E;
      try discriminate;
      destruct Hst as (Hs1 & (new1 & Ht1 & Hn1) & Hi1);
      destruct (IH _ _ H) as (Hs2 & (new2 & Ht2 & Hn2) & Hi2 & Hend);
      (split; [rewrite Hs2, Hs1; reflexivity|split;
        [exists (new1 ++ new2)%list; split;
           [rewrite Ht2, Ht1, app_assoc; reflexivity|apply Forall_app; auto]
        |split; [intros Hi; apply Hi2, Hi1; exact Hi|exact Hend]]]).
Qed.

Lemma scan_ok s toks sc :
  scan s = Done toks sc ->
  exists body, toks = (body ++ [mkToken TokenType.Eof "" None (S (nl_count s))])%list /\
               Forall scanned_token_ok body.
Proof.
  unfold scan, scan_tokens. intros H.
  destruct (scan_loop (fuel_of (new s)) [] (new s)) as [errs sc1|m sc1| |] eqn:E;
    try discriminate.
  destruct (scan_loop_ok _ _ _ _ _ E) as (Hs & (body & Ht & Hb) & Hi & Hend).
  destruct errs; [|discriminate]. injection H as <- _.
  exists body. split; [|exact Hb]. simpl. rewrite Ht. simpl.
  destruct Hi as [Hle Hl].
  - unfold scan_inv; simpl. split; [lia|destruct s; reflexivity].
  - unfold is_at_end in Hend. apply Nat.leb_le in Hend.
    rewrite Hs in Hle, Hend, Hl. simpl in Hle, Hend, Hl.
    assert (current sc1 = String.length s) as Hc by lia.
    rewrite Hl, Hc, substring_0_length. reflexivity.
Qed.

(** A successful scan ends with exactly one [Eof] token, whose line is one
    more than the number of newlines in the source, and no other token is
    [Eof]. *)
Theorem scan_ends_with_single_eof s toks sc :
  scan s = Done toks sc ->
  exists body,
    toks = (body ++ [mkToken TokenType.Eof "" None (S (nl_count s))])%list /\
    Forall (fun t => token_type t <> TokenType.Eof) body.
Proof.
  intros H. destruct (scan_ok _ _ _ H) as (body & -> & Hb). exists body. split; [reflexivity|].
  eapply Forall_impl; [|exact Hb]. intros t (_ & _ & _ & Ht). exact Ht.
Qed.

Lemma scan_ends_with_single_eof_witness :
  exists toks sc, scan "var x = 1.5;" = Done toks sc /\
    exists body, toks = (body ++ [mkToken TokenType.Eof "" None 1])%list /\
                 Forall (fun t => token_type t <> TokenType.Eof) body.
Proof.
  destruct (scan "var x = 1.5;") as [toks sc| | |] eqn:E;
    try (vm_compute in E; discriminate).
  exists toks, sc. split; [reflexivity|].
  exact (scan_ends_with_single_eof _ _ _ E).
Defined.

(** Every Number and String token a successful scan produces carries a
    literal that [LiteralValue::from_token] converts, and no other token
    carries a literal. *)
Theorem scan_literals_convert s toks sc :
  scan s = Done toks sc ->
  Forall (fun t =>
    ((token_type t = TokenType.Number \/ token_type t = TokenType.StringLit) -> from_token t <> None) /\
    (token_type t <> TokenType.Number -> token_type t <> TokenType.StringLit -> literal t = None)) toks.
Proof.
  intros H. destruct (scan_ok _ _ _ H) as (body & -> & Hb). apply Forall_app. split.
  - eapply Forall_impl; [|exact Hb]. intros t (H1 & H2 & _). auto.
  - constructor; [|constructor]. simpl. split; [intros [E|E]; discriminate|reflexivity].
Qed.

Lemma scan_literals_convert_witness :
  exists toks sc, scan "var x = 1.5;" = Done toks sc /\
    Forall (fun t =>
      ((token_type t = TokenType.Number \/ token_type t = TokenType.StringLit) ->
         from_token t <> None) /\
      (token_type t <> TokenType.Number -> token_type t <> TokenType.StringLit ->
         literal t = None)) toks.
Proof.
  destruct (scan "var x = 1.5;") as [toks sc| | |] eqn:E;
    try (vm_compute in E; discriminate).
  exists toks, sc. split; [reflexivity|].
  exact (scan_literals_convert _ _ _ E).
Defined.

(** No Identifier token a successful scan produces has a keyword as its
    lexeme. *)
Theorem scan_identifiers_not_keywords s toks sc :
  scan s = Done toks sc ->
  Forall (fun t => token_type t = TokenType.Identifier -> keyword_get (lexeme t) keywords = None) toks.
Proof.
  intros H. destruct (scan_ok _ _ _ H) as (body & -> & Hb). apply Forall_app. split.
  - eapply Forall_impl; [|exact Hb]. intros t (_ & _ & H3 & _). exact H3.
  - constructor; [|constructor]. simpl. discriminate.
Qed.

Lemma scan_identifiers_not_keywords_witness :
  exists toks sc, scan "var x = 1.5;" = Done toks sc /\
    Forall (fun t => token_type t = TokenType.Identifier ->
                     keyword_get (lexeme t) keywords = None) toks.
Proof.
  destruct (scan "var x = 1.5;") as [toks sc| | |] eqn:E;
    try (vm_compute in E; discriminate).
  exists toks, sc. split; [reflexivity|].
  exact (scan_identifiers_not_keywords _ _ _ E).
Defined.

Lemma scan_token_quote sc :
  char_at sc (current sc) = quote ->
  scan_token sc = string_ (with_current sc (S (current sc))).
Proof. intros H. unfold scan_token, advance. rewrite H. reflexivity. Qed.

Lemma string_loop_to_end f sc :
  (forall i, current sc <= i -> String.get i (source sc) <> Some quote) ->
  String.length (source sc) - current sc < f ->
  exists sc', string_loop f sc = Done tt sc' /\ is_at_end sc' = true /\
              source sc' = source sc /\ tokens sc' = tokens sc.
Proof.
  revert sc. induction f as [|f IH]; intros sc Hq Hf; [lia|]. simpl.
  destruct (is_at_end sc) eqn:He.
  - rewrite andb_false_r. exists sc. auto.
  - rewrite peek_not_end by exact He.
    pose proof (not_at_end_lt _ He) as Hlt. destruct (get_lt _ _ Hlt) as [c Hc].
    assert (Hcq : Ascii.eqb (char_at sc (current sc)) quote = false).
    { unfold char_at. rewrite Hc. apply Ascii.eqb_neq. intros ->. exact (Hq _ (le_n _) Hc). }
    rewrite Hcq. simpl.
    set (sc1 := if Ascii.eqb (char_at sc (current sc)) newline then with_line sc (S (line sc)) else sc).
    assert (Hsc1 : source (snd (advance sc1)) = source sc /\ tokens (snd (advance sc1)) = tokens sc /\
                   current (snd (advance sc1)) = S (current sc)).
    { unfold sc1. destruct (Ascii.eqb _ newline); destruct sc; repeat split. }
    destruct Hsc1 as (H1 & H2 & H3).
    destruct (IH (snd (advance sc1))) as (sc' & E & Hend & Hs & Ht).
    + rewrite H1, H3. intros i Hi. apply Hq. lia.
    + rewrite H1, H3. lia.
    + exists sc'. repeat split; try congruence. exact E.
Qed.



End ScanProofs.
